(** * gdl: a chunked HTTP downloader -- shallow embedding and properties

    The Go package [gdl] probes a URL with a one byte range request, plans
    a list of byte ranges, downloads them concurrently through positional
    writers and counts the bytes it has seen.  This file embeds the
    package (planner, default policy, probe, filename resolver, offset
    writer, byte counter, chunk worker, orchestrator) and states its
    properties.

    Conventions.  Go's [uint64], [uint] and [int64] values are integers of
    [Z]; every arithmetic operation of the source that can leave the range
    is followed by [u64] or [i64], the reduction Go performs.  Strings are
    [string], bytes are [byte] lists, the parameter map of a media type is a
    [gmap string string].  A method that changes its receiver returns the
    new receiver next to its results.

    Outside the embedding: the name of the destination ([Path],
    [GetFilename]; there is one destination file), the limits of memory
    (the slice that [Init] allocates), time, and the interleavings of the
    workers other than the one spelled out at [dl]. *)

From Stdlib Require Import ZArith Lia List Bool String Ascii DecimalString.
From stdpp Require Import base list strings gmap.

Local Open Scope Z_scope.

(** ** Machine integers *)

Module Machine.

(** Reduction of an integer to an unsigned 64 bit value. *)
Definition u64 (z : Z) : Z := z mod 2 ^ 64.

(** Reduction of an integer to a signed 64 bit value (two's complement),
    which is also the conversion [int64(x)] of a [uint64]. *)
Definition i64 (z : Z) : Z := (z + 2 ^ 63) mod 2 ^ 64 - 2 ^ 63.

Definition is_u64 (z : Z) : Prop := 0 <= z < 2 ^ 64.
Definition is_i64 (z : Z) : Prop := - 2 ^ 63 <= z < 2 ^ 63.

End Machine.

Import Machine.

(** ** Errors and results *)

(** The error values the package produces or passes on.  [ErrExternal]
    stands for an error made by a collaborator (transport, file system,
    sink), identified by a tag. *)
Inductive error : Type :=
  | EOF
  | ErrShortWrite
  | ErrInvalidWrite
  | ErrStatus (code : Z)
  | ErrInvalidContentRange (cr : string)
  | ErrRangeLength (contentLength : Z) (contentRange : string)
  | ErrCanceled
  | ErrExternal (tag : string).

(** A Go call either returns, returns a non-nil error, or panics (integer
    division by zero is the only panic of the modelled code). *)
Inductive result (A : Type) : Type :=
  | Ok (a : A)
  | Fail (e : error)
  | PanicDivideByZero.

Arguments Ok {A} a.
Arguments Fail {A} e.
Arguments PanicDivideByZero {A}.

(** Sequencing stops at the first error or panic; [x ← r; k] is stdpp's
    notation for it. *)
#[export] Instance result_bind : MBind result := fun A B k r =>
  match r with
  | Ok a => k a
  | Fail e => Fail e
  | PanicDivideByZero => PanicDivideByZero
  end.

#[export] Instance result_ret : MRet result := fun A a => Ok a.

(** Go's unsigned division: a zero divisor panics. *)
Definition udiv (a b : Z) : result Z :=
  if b =? 0 then PanicDivideByZero else Ok (a / b).

(** ** Data model (chunk.go, and the types of the session) *)

Record Chunk : Type := { Start : Z; End : Z }.

Record Info : Type := { Size : Z; Rangeable : bool }.

(** [Info{}], the zero value. *)
Definition Info_zero : Info := {| Size := 0; Rangeable := false |}.

Record GdlHeader : Type := { Key : string; Value : string }.

(** The fields of [Download] that the modelled methods read or write.
    [Header] is the list of extra request headers; [size] is the byte
    counter. *)
Record Download : Type := {
  Concurrency : Z;
  URL : string;
  ChunkSize : Z;
  MinChunkSize : Z;
  MaxChunkSize : Z;
  Header : list GdlHeader;
  size : Z;
  info : Info;
  chunks : list Chunk
}.

Definition set_Concurrency (c : Z) (d : Download) : Download :=
  {| Concurrency := c; URL := URL d; ChunkSize := ChunkSize d;
     MinChunkSize := MinChunkSize d; MaxChunkSize := MaxChunkSize d;
     Header := Header d; size := size d; info := info d;
     chunks := chunks d |}.

Definition set_ChunkSize (c : Z) (d : Download) : Download :=
  {| Concurrency := Concurrency d; URL := URL d; ChunkSize := c;
     MinChunkSize := MinChunkSize d; MaxChunkSize := MaxChunkSize d;
     Header := Header d; size := size d; info := info d;
     chunks := chunks d |}.

Definition set_size (n : Z) (d : Download) : Download :=
  {| Concurrency := Concurrency d; URL := URL d; ChunkSize := ChunkSize d;
     MinChunkSize := MinChunkSize d; MaxChunkSize := MaxChunkSize d;
     Header := Header d; size := n; info := info d; chunks := chunks d |}.

Definition set_info (i : Info) (d : Download) : Download :=
  {| Concurrency := Concurrency d; URL := URL d; ChunkSize := ChunkSize d;
     MinChunkSize := MinChunkSize d; MaxChunkSize := MaxChunkSize d;
     Header := Header d; size := size d; info := i; chunks := chunks d |}.

Definition set_chunks (l : list Chunk) (d : Download) : Download :=
  {| Concurrency := Concurrency d; URL := URL d; ChunkSize := ChunkSize d;
     MinChunkSize := MinChunkSize d; MaxChunkSize := MaxChunkSize d;
     Header := Header d; size := size d; info := info d; chunks := l |}.

(** ** Default policy ([getDefaultConcurrency], [getDefaultChunkSize]) *)

Module Policy.

(** [getDefaultConcurrency], with the value of [runtime.NumCPU()] as an
    argument.  The product is an [int]; [uint(...)] reinterprets it. *)
Definition getDefaultConcurrency (numCPU : Z) : Z :=
  let c := u64 (i64 (numCPU * 3)) in
  let c := if 20 <? c then 20 else c in
  let c := if c <=? 2 then 4 else c in
  c.

(** [getDefaultChunkSize]; [min] and [max] are the source's parameter
    names. *)
Definition getDefaultChunkSize (totalSize min max concurrency : Z) : result Z :=
  cs ← udiv totalSize concurrency;
  let cs := if 102400000 <=? cs then cs / 2 else cs in
  let min :=
    if min =? 0
    then (let min := 2097152 in
          if totalSize <=? min then totalSize / 2 else min)
    else min in
  let cs := if cs <? min then min else cs in
  let cs := if (0 <? max) && (max <? cs) then max else cs in
  let cs := if totalSize <=? cs then totalSize / 2 else cs in
  Ok cs.

End Policy.

(** ** Chunk planner (the second half of [Download.Init]) *)

Module Planner.

(** The [for] loop of [Init].  [fuel] bounds the number of iterations;
    [i] is the loop variable.  The chunk of iteration [i] is appended
    before its fields are set, so the list holds it also when the loop
    breaks. *)
Fixpoint plan_loop (fuel : nat) (total cs chunksLen i : Z) : list Chunk :=
  match fuel with
  | O => []
  | S fuel' =>
      if i <? chunksLen then
        let start := u64 (u64 (cs * i) + i) in
        let end_ := u64 (start + cs) in
        if (total <=? end_) || (i =? u64 (chunksLen - 1))
        then [ {| Start := start; End := u64 (total - 1) |} ]
        else {| Start := start; End := end_ |}
               :: plan_loop fuel' total cs chunksLen (u64 (i + 1))
      else []
  end.

(** The loop runs at most [chunksLen] times. *)
Definition plan (total cs : Z) : result (list Chunk) :=
  chunksLen ← udiv total cs;
  Ok (plan_loop (Z.to_nat chunksLen) total cs chunksLen 0).

End Planner.

(** [Download.Init] from the point where the probe has returned [inf]
    without error. *)
Definition Init_after_probe (numCPU : Z) (inf : Info) (d : Download)
  : result Download :=
  let d := set_info inf d in
  if negb (Rangeable (info d)) then Ok d
  else
    let d := if Concurrency d =? 0
             then set_Concurrency (Policy.getDefaultConcurrency numCPU) d
             else d in
    d ← (if ChunkSize d =? 0
         then cs ← Policy.getDefaultChunkSize (Size (info d)) (MinChunkSize d)
                      (MaxChunkSize d) (u64 (Concurrency d));
              Ok (set_ChunkSize cs d)
         else Ok d);
    l ← Planner.plan (Size (info d)) (ChunkSize d);
    Ok (set_chunks l d).

(** ** Functions of Go's standard library that the package calls

    Models of [strings.Contains], [strings.Split] with a one byte
    separator, and [strconv.ParseUint] in base 10 for 64 bits, written
    after their documented behaviour on byte strings. *)

Module GoStrings.

Definition code (c : ascii) : Z := Z.of_N (N_of_ascii c).

Fixpoint HasPrefix (s prefix : string) : bool :=
  match prefix, s with
  | EmptyString, _ => true
  | String _ _, EmptyString => false
  | String a prefix', String b s' =>
      if Ascii.eqb a b then HasPrefix s' prefix' else false
  end.

(** [strings.Contains(s, substr)]: some suffix of [s] starts with
    [substr]. *)
Fixpoint Contains (s substr : string) : bool :=
  HasPrefix s substr ||
  match s with
  | EmptyString => false
  | String _ s' => Contains s' substr
  end.

(** [strings.Split(s, sep)] for a separator of one byte: the pieces
    between the separators, one more than there are separators. *)
Fixpoint Split (s : string) (sep : ascii) : list string :=
  match s with
  | EmptyString => [EmptyString]
  | String c s' =>
      if Ascii.eqb c sep then EmptyString :: Split s' sep
      else match Split s' sep with
           | [] => [String c EmptyString]
           | piece :: pieces => String c piece :: pieces
           end
  end.

(** The value of a decimal digit; [None] for any other byte. *)
Definition digit (c : ascii) : option Z :=
  if (48 <=? code c) && (code c <=? 57) then Some (code c - 48) else None.

Definition maxUint64 : Z := 2 ^ 64 - 1.

(** The loop of [strconv.ParseUint(s, 10, 64)] over the bytes of [s],
    with the accumulator [n]: a byte that is no digit is a syntax
    error, a value that leaves 64 bits is a range error; both are
    [None]. *)
Fixpoint ParseUint_loop (s : string) (n : Z) : option Z :=
  match s with
  | EmptyString => Some n
  | String c s' =>
      match digit c with
      | None => None
      | Some d =>
          if maxUint64 / 10 + 1 <=? n then None
          else
            let n := u64 (n * 10) in
            let n1 := u64 (n + d) in
            if (n1 <? n) || (maxUint64 <? n1) then None
            else ParseUint_loop s' n1
      end
  end.

(** [strconv.ParseUint(s, 10, 64)]; the empty string is a syntax error. *)
Definition ParseUint (s : string) : option Z :=
  match s with
  | EmptyString => None
  | _ => ParseUint_loop s 0
  end.

(** [fmt.Sprintf] with the verb [%d] on an unsigned value. *)
Definition decimal (z : Z) : string :=
  DecimalString.NilZero.string_of_uint (N.to_uint (Z.to_N z)).

End GoStrings.

(** ** [mime.ParseMediaType]

    A model of the grammar the Go function accepts: a media type
    [type] or [type/subtype], then parameters [; name=value] whose value
    is a token or a quoted string.  It follows the functions of Go's
    [mime] package ([consumeToken], [consumeValue], [consumeMediaParam],
    [checkMediaTypeDisposition]) on ASCII input.  Parameters whose name
    holds a star (the continuations and encodings of RFC 2231) are not
    decoded: the model reports an error on them.  The resolver below does
    not depend on this model; it takes the parser as an argument. *)

Module Mime.

Import GoStrings.

Definition isTSpecial (c : ascii) : bool :=
  bool_decide (code c ∈ [40; 41; 60; 62; 64; 44; 59; 58; 92; 34; 47; 91; 93; 63; 61]).

Definition isTokenChar (c : ascii) : bool :=
  (32 <? code c) && (code c <? 127) && negb (isTSpecial c).

Definition isSpace (c : ascii) : bool :=
  bool_decide (code c ∈ [9; 10; 11; 12; 13; 32]).

Definition lower (c : ascii) : ascii :=
  if (65 <=? code c) && (code c <=? 90)
  then ascii_of_N (Z.to_N (code c + 32)) else c.

Fixpoint ToLower (s : string) : string :=
  match s with
  | EmptyString => EmptyString
  | String c s' => String (lower c) (ToLower s')
  end.

Fixpoint TrimLeft (s : string) : string :=
  match s with
  | EmptyString => EmptyString
  | String c s' => if isSpace c then TrimLeft s' else s
  end.

Fixpoint rev_string (s acc : string) : string :=
  match s with
  | EmptyString => acc
  | String c s' => rev_string s' (String c acc)
  end.

Definition TrimSpace (s : string) : string :=
  rev_string (TrimLeft (rev_string (TrimLeft s) EmptyString)) EmptyString.

(** [strings.Cut(s, ";")]: the part before the first [sep] and the part
    from it on ([v[len(base):]] in the caller). *)
Fixpoint cut_at (sep : ascii) (s : string) : string * string :=
  match s with
  | EmptyString => (EmptyString, EmptyString)
  | String c s' =>
      if Ascii.eqb c sep then (EmptyString, s)
      else let '(a, b) := cut_at sep s' in (String c a, b)
  end.

(** The longest prefix of token characters, and the rest. *)
Fixpoint consumeToken (v : string) : string * string :=
  match v with
  | EmptyString => (EmptyString, EmptyString)
  | String c v' =>
      if isTokenChar c
      then let '(t, rest) := consumeToken v' in (String c t, rest)
      else (EmptyString, v)
  end.

(** The body of a quoted string, after the opening quote: the unquoted
    text and what follows the closing quote. *)
Fixpoint quoted (v : string) (buffer : string) : option (string * string) :=
  match v with
  | EmptyString => None
  | String r v' =>
      if code r =? 34 then Some (rev_string buffer EmptyString, v')
      else
        match v' with
        | String x v'' =>
            if (code r =? 92) && isTSpecial x
            then quoted v'' (String x buffer)
            else if (code r =? 13) || (code r =? 10) then None
            else quoted v' (String r buffer)
        | EmptyString =>
            if (code r =? 13) || (code r =? 10) then None
            else quoted v' (String r buffer)
        end
  end.

Definition consumeValue (v : string) : string * string :=
  match v with
  | EmptyString => (EmptyString, EmptyString)
  | String c v' =>
      if code c =? 34
      then match quoted v' EmptyString with
           | Some r => r
           | None => (EmptyString, v)
           end
      else consumeToken v
  end.

Definition string_eqb (a b : string) : bool := bool_decide (a = b).

Definition consumeMediaParam (v : string) : string * string * string :=
  let rest := TrimLeft v in
  match rest with
  | String c rest =>
      if code c =? 59 then
        let rest := TrimLeft rest in
        let '(param, rest) := consumeToken rest in
        let param := ToLower param in
        if string_eqb param EmptyString then (EmptyString, EmptyString, v)
        else
          let rest := TrimLeft rest in
          match rest with
          | String e rest =>
              if code e =? 61 then
                let rest := TrimLeft rest in
                let '(value, rest2) := consumeValue rest in
                if string_eqb value EmptyString && string_eqb rest2 rest
                then (EmptyString, EmptyString, v)
                else (param, value, rest2)
              else (EmptyString, EmptyString, v)
          | EmptyString => (EmptyString, EmptyString, v)
          end
      else (EmptyString, EmptyString, v)
  | EmptyString => (EmptyString, EmptyString, v)
  end.

Definition checkMediaTypeDisposition (s : string) : bool :=
  let '(typ, rest) := consumeToken s in
  if string_eqb typ EmptyString then false
  else match rest with
       | EmptyString => true
       | String c rest =>
           if code c =? 47 then
             let '(subtype, rest) := consumeToken rest in
             negb (string_eqb subtype EmptyString) && string_eqb rest EmptyString
           else false
       end.

(** The parameter loop; every turn consumes at least the semicolon, so
    [fuel] above the length of [v] is never used up. *)
Fixpoint params_loop (fuel : nat) (v : string) (params : gmap string string)
  : option (gmap string string) :=
  match fuel with
  | O => None
  | S fuel' =>
      let v := TrimLeft v in
      match v with
      | EmptyString => Some params
      | _ =>
          let '(key, value, rest) := consumeMediaParam v in
          if string_eqb key EmptyString then
            if string_eqb (TrimSpace rest) ";" then Some params else None
          else if Contains key "*" then None
          else
            match params !! key with
            | Some old =>
                if string_eqb old value
                then params_loop fuel' rest (<[key := value]> params)
                else None
            | None => params_loop fuel' rest (<[key := value]> params)
            end
      end
  end.

Definition ParseMediaType (v : string)
  : option (string * gmap string string) :=
  let '(base, rest) := cut_at ";" v in
  let mediatype := TrimSpace (ToLower base) in
  if checkMediaTypeDisposition mediatype then
    params ← params_loop (S (String.length rest)) rest ∅;
    Some (mediatype, params)
  else None.

End Mime.

(** ** Filename resolver ([getNameFromHeader]) *)

Section Resolver.

Import GoStrings.

(** [mime.ParseMediaType]: the media type and its parameters, or an
    error ([None]). *)
Variable ParseMediaType : string -> option (string * gmap string string).

(** Indexing a Go map at a missing key gives the zero value. *)
Definition param (params : gmap string string) (key : string) : string :=
  default EmptyString (params !! key).

Definition getNameFromHeader (val : string) : string :=
  match ParseMediaType val with
  | None => EmptyString
  | Some (_, params) =>
      if Contains (param params "filename") ".."
         || Contains (param params "filename") "/"
         || Contains (param params "filename") "\"
      then EmptyString
      else param params "filename"
  end.

End Resolver.

(** ** Probe classification (the end of [GetInfoOrDownload]) *)

(** What [GetInfoOrDownload] returns once the body has been copied, from
    the value of the [content-range] header ([Header.Get] gives the empty
    string when the header is absent) and [res.ContentLength]. *)
Definition classify (cr : string) (ContentLength : Z) : result Info :=
  if negb (Mime.string_eqb cr EmptyString) && (ContentLength =? 1) then
    match GoStrings.Split cr "/" with
    | [_; total] =>
        match GoStrings.ParseUint total with
        | Some length => Ok {| Size := length; Rangeable := true |}
        | None => Fail (ErrInvalidContentRange cr)
        end
    | _ => Fail (ErrInvalidContentRange cr)
    end
  else Ok Info_zero.

(** ** Readers and writers

    Go's interfaces [io.Reader], [io.Writer] and [io.WriterAt] as classes.
    A call returns the count or the bytes, the error (if any) and the new
    state of the receiver.  [Read r k] reads into a buffer of [k] bytes. *)

Abbreviation byte := Byte.byte.

Class Reader (R : Type) : Type :=
  Read : R -> nat -> list byte * option error * R.

Class Writer (W : Type) : Type :=
  Write : W -> list byte -> Z * option error * W.

Class WriterAt (S : Type) : Type :=
  WriteAt : S -> list byte -> Z -> Z * option error * S.

(** *** chunk.go: [OffsetWriter] *)

Record OffsetWriter (S : Type) : Type := { sink : S; offset : Z }.

Arguments sink {S} _.
Arguments offset {S} _.

(** [OffsetWriter.Write]: a positional write at the current offset, then
    [dst.offset += int64(n)]. *)
#[export] Instance OffsetWriter_Write {S : Type} `{WriterAt S}
  : Writer (OffsetWriter S) := fun dst b =>
  let '(n, err, s) := WriteAt (sink dst) b (offset dst) in
  (n, err, {| sink := s; offset := i64 (offset dst + i64 n) |}).

(** *** The byte counter of the session *)

(** [Download.Write]: [atomic.AddUint64(&d.size, uint64(len(b)))]; it
    reports [len(b)] and no error. *)
#[export] Instance Download_Write : Writer Download := fun d b =>
  let n := Z.of_nat (length b) in
  (n, None, set_size (u64 (size d + u64 n)) d).

(** [Download.Size] and [Download.TotalSize]. *)
Definition Download_Size (d : Download) : Z := size d.
Definition TotalSize (d : Download) : Z := Size (info d).

(** *** Response bodies

    A body delivers its bytes in pieces: a read returns bytes of the first
    pending piece, at most as many as the buffer holds; when no piece is
    left it returns no byte and the [ending] ([EOF], or the error that cut
    the body short). *)
Record Body : Type := { pending : list (list byte); ending : error }.

#[export] Instance Body_Read : Reader Body := fun r k =>
  match pending r with
  | [] => ([], Some (ending r), r)
  | piece :: rest =>
      (take k piece, None,
       {| pending := match drop k piece with
                     | [] => rest
                     | remainder => remainder :: rest
                     end;
          ending := ending r |})
  end.

(** All the bytes a body still holds. *)
Definition Body_data (r : Body) : list byte := concat (pending r).

(** A bound on the reads a body answers before it reports its ending. *)
Definition Body_fuel (r : Body) : nat :=
  S (length (pending r) + length (Body_data r)).

(** *** [io.TeeReader], [io.LimitedReader] *)

Record teeReader (R W : Type) : Type := { tee_r : R; tee_w : W }.

Arguments tee_r {R W} _.
Arguments tee_w {R W} _.

#[export] Instance teeReader_Read {R W : Type} `{Reader R} `{Writer W}
  : Reader (teeReader R W) := fun t k =>
  let '(p, err, r) := Read (tee_r t) k in
  if 0 <? Z.of_nat (length p) then
    let '(n, werr, w) := Write (tee_w t) p in
    match werr with
    | Some e => (take (Z.to_nat n) p, Some e, {| tee_r := r; tee_w := w |})
    | None => (p, err, {| tee_r := r; tee_w := w |})
    end
  else (p, err, {| tee_r := r; tee_w := tee_w t |}).

Record LimitedReader (R : Type) : Type := { lim_R : R; lim_N : Z }.

Arguments lim_R {R} _.
Arguments lim_N {R} _.

#[export] Instance LimitedReader_Read {R : Type} `{Reader R}
  : Reader (LimitedReader R) := fun l k =>
  if lim_N l <=? 0 then ([], Some EOF, l)
  else
    let k := if lim_N l <? Z.of_nat k then Z.to_nat (lim_N l) else k in
    let '(p, err, r) := Read (lim_R l) k in
    (p, err, {| lim_R := r; lim_N := lim_N l - Z.of_nat (length p) |}).

(** *** [io.Copy], [io.CopyN] *)

(** The loop of [io.Copy] with a buffer of [bufsize] bytes: the count
    written, the error, the writer and the reader as the loop leaves
    them.  [None] when [fuel] turns of the loop did not end it. *)
Fixpoint copy_loop {R W : Type} `{Reader R} `{Writer W}
    (fuel bufsize : nat) (dst : W) (src : R) (written : Z)
  : option (Z * option error * W * R) :=
  match fuel with
  | O => None
  | S fuel' =>
      let '(p, er, src) := Read src bufsize in
      let nr := Z.of_nat (length p) in
      let after_read (dst : W) (written : Z) :=
        match er with
        | Some EOF => Some (written, None, dst, src)
        | Some e => Some (written, Some e, dst, src)
        | None => copy_loop fuel' bufsize dst src written
        end in
      if 0 <? nr then
        let '(nw, ew, dst) := Write dst p in
        let '(nw, ew) :=
          if (nw <? 0) || (nr <? nw)
          then (0, match ew with None => Some ErrInvalidWrite | _ => ew end)
          else (nw, ew) in
        let written := i64 (written + nw) in
        match ew with
        | Some e => Some (written, Some e, dst, src)
        | None =>
            if negb (nr =? nw)
            then Some (written, Some ErrShortWrite, dst, src)
            else after_read dst written
        end
      else after_read dst written
  end.

(** The buffer [io.Copy] allocates: 32 KiB, or less when the source is a
    [LimitedReader] with fewer bytes to go. *)
Definition buffer_size (limit : option Z) : nat :=
  match limit with
  | Some n => if n <? 32 * 1024
              then (if n <? 1 then 1%nat else Z.to_nat n)
              else Z.to_nat (32 * 1024)
  | None => Z.to_nat (32 * 1024)
  end.

Definition Copy {R W : Type} `{Reader R} `{Writer W}
    (fuel : nat) (dst : W) (src : R)
  : option (Z * option error * W * R) :=
  copy_loop fuel (buffer_size None) dst src 0.

Definition CopyN {R W : Type} `{Reader R} `{Writer W}
    (fuel : nat) (dst : W) (src : R) (n : Z)
  : option (Z * option error * W * R) :=
  '(written, err, dst, l) ←
    copy_loop fuel (buffer_size (Some n)) dst {| lim_R := src; lim_N := n |} 0;
  if written =? n then Some (n, None, dst, lim_R l)
  else if (written <? n) && bool_decide (err = None)
       then Some (written, Some EOF, dst, lim_R l)
       else Some (written, err, dst, lim_R l).

(** ** Requests and responses (gdl.go: [NewRequest]) *)

Record Request : Type := {
  Method : string;
  RequestURL : string;
  RequestHeader : gmap string string
}.

Record Response : Type := {
  StatusCode : Z;
  ResponseHeader : gmap string string;
  ContentLength : Z;
  ResponseBody : Body
}.

(** The HTTP side of the environment: whether a URL is accepted when a
    request is built, and the answer of [Client.Do] to a request.  Header
    names are taken in their canonical form. *)
Record Client : Type := {
  url_error : string -> option error;
  Client_Do : Request -> error + Response
}.

Definition UserAgent : string := "GDL/1.0".

Definition Header_Set (key value : string) (req : Request) : Request :=
  {| Method := Method req; RequestURL := RequestURL req;
     RequestHeader := <[key := value]> (RequestHeader req) |}.

Definition Header_Get (h : gmap string string) (key : string) : string :=
  default EmptyString (h !! key).

Definition NewRequest (client : Client) (method URL : string)
    (header : list GdlHeader) : error + Request :=
  match url_error client URL with
  | Some err => inl err
  | None =>
      inr (foldl (fun req h => Header_Set (Key h) (Value h) req)
             (Header_Set "User-Agent" UserAgent
                {| Method := method; RequestURL := URL; RequestHeader := ∅ |})
             header)
  end.

(** ** Fetch worker ([Download.DownloadChunk]) *)

(** [fmt.Sprintf("bytes=%d-%d", c.Start, c.End)] *)
Definition contentRange (c : Chunk) : string :=
  "bytes=" +:+ GoStrings.decimal (Start c) +:+ "-" +:+ GoStrings.decimal (End c).

(** [int64(c.End-c.Start+1)] *)
Definition range_length (c : Chunk) : Z :=
  i64 (u64 (u64 (End c - Start c) + 1)).

(** The error (if any), the session and the destination after the call;
    [None] only if the copy ran out of fuel. *)
Definition DownloadChunk {W : Type} `{Writer W}
    (client : Client) (d : Download) (c : Chunk) (dest : W)
  : option (option error * Download * W) :=
  match NewRequest client "GET" (URL d) (Header d) with
  | inl err => Some (Some err, d, dest)
  | inr req =>
      let req := Header_Set "Range" (contentRange c) req in
      match Client_Do client req with
      | inl err => Some (Some err, d, dest)
      | inr res =>
          if negb (ContentLength res =? range_length c)
          then Some (Some (ErrRangeLength (ContentLength res) (contentRange c)),
                     d, dest)
          else
            '(_, err, dest, src) ←
              CopyN (Body_fuel (ResponseBody res)) dest
                {| tee_r := ResponseBody res; tee_w := d |}
                (ContentLength res);
            Some (err, tee_w src, dest)
      end
  end.

(** ** The destination file

    The file at the path of the session, as the bytes it holds.  A
    positional write beyond the end fills the gap with zero bytes, a
    write of no byte changes nothing, a negative offset is refused. *)
Record MemFile : Type := { content : list byte }.

Definition write_at (off : nat) (b data : list byte) : list byte :=
  match b with
  | [] => data
  | _ => resize off Byte.x00 data ++ b ++ drop (off + length b) data
  end.

#[export] Instance MemFile_WriteAt : WriterAt MemFile := fun f b off =>
  if off <? 0 then (0, Some (ErrExternal "negative offset"), f)
  else (Z.of_nat (length b), None,
        {| content := write_at (Z.to_nat off) b (content f) |}).

(** [os.Create]: the file exists and is empty. *)
Definition Create : MemFile := {| content := [] |}.

(** [file.Truncate(n)]; a negative size is an error and changes nothing. *)
Definition Truncate (f : MemFile) (n : Z) : option error * MemFile :=
  if n <? 0 then (Some (ErrExternal "invalid argument"), f)
  else (None, {| content := resize (Z.to_nat n) Byte.x00 (content f) |}).

(** ** Orchestrator ([GetInfoOrDownload], [Init], [dl], [Start], [Do]) *)

(** What the methods take from outside: the HTTP client, the number of
    CPUs, whether [os.Create] fails, whether the context of the session is
    done when [Start] looks at it, and whether the [select] of [Start]
    takes the case of the context when it is ready. *)
Record Env : Type := {
  client : Client;
  numCPU : Z;
  create_error : option error;
  ctx_done : bool;
  select_ctx : bool
}.

(** [GetInfoOrDownload]: the result, the session (its counter has seen the
    body) and the destination file.  A sequential write to the new file is
    a positional write that starts at offset 0. *)
Definition GetInfoOrDownload (env : Env) (d : Download) (file : MemFile)
  : option (result Info * Download * MemFile) :=
  match NewRequest (client env) "GET" (URL d)
          (Header d ++ [ {| Key := "Range"; Value := "bytes=0-0" |} ]) with
  | inl err => Some (Fail err, d, file)
  | inr req =>
      match Client_Do (client env) req with
      | inl err => Some (Fail err, d, file)
      | inr res =>
          if 300 <=? StatusCode res
          then Some (Fail (ErrStatus (StatusCode res)), d, file)
          else
            match create_error env with
            | Some err => Some (Fail err, d, file)
            | None =>
                '(_, err, dest, src) ←
                  Copy (Body_fuel (ResponseBody res))
                    {| sink := Create; offset := 0 |}
                    {| tee_r := ResponseBody res; tee_w := d |};
                match err with
                | Some err => Some (Fail err, tee_w src, sink dest)
                | None =>
                    Some (classify
                            (Header_Get (ResponseHeader res) "Content-Range")
                            (ContentLength res),
                          tee_w src, sink dest)
                end
            end
      end
  end.

(** [Init]: the probe, then the planning.  [d.info] is assigned whatever
    the probe returns, [Info{}] with an error. *)
Definition Init (env : Env) (d : Download) (file : MemFile)
  : option (result unit * Download * MemFile) :=
  '(r, d, file) ← GetInfoOrDownload env d file;
  match r with
  | Ok inf =>
      match Init_after_probe (numCPU env) inf d with
      | Ok d => Some (Ok (), d, file)
      | Fail err => Some (Fail err, set_info inf d, file)
      | PanicDivideByZero => Some (PanicDivideByZero, set_info inf d, file)
      end
  | Fail err => Some (Fail err, set_info Info_zero d, file)
  | PanicDivideByZero => Some (PanicDivideByZero, d, file)
  end.

(** One chunk request made by [dl]: the chunk and the offset its writer
    starts at. *)
Record Launch : Type := { launched : Chunk; writer_offset : Z }.

(** [dl], under the schedule that runs the workers one after the other in
    the order of the list (the order the pool admits them with a
    concurrency of one): the requests launched, the value sent on the
    error channel, the session and the file.  A worker that fails sends
    its error and the value is final. *)
Fixpoint dl (client : Client) (d : Download) (file : MemFile)
    (chunks : list Chunk)
  : option (list Launch * option error * Download * MemFile) :=
  match chunks with
  | [] => Some ([], None, d, file)
  | c :: rest =>
      let launch := {| launched := c; writer_offset := i64 (Start c) |} in
      '(err, d, w) ←
        DownloadChunk client d c {| sink := file; offset := i64 (Start c) |};
      match err with
      | Some err => Some ([launch], Some err, d, sink w)
      | None =>
          '(launches, err, d, file) ← dl client d (sink w) rest;
          Some (launch :: launches, err, d, file)
      end
  end.

(** [Download.Start] (the name [Start] is the field of [Chunk]): the
    requests launched, the error returned, the session and the file. *)
Definition Download_Start (env : Env) (d : Download) (file : MemFile)
  : option (list Launch * option error * Download * MemFile) :=
  if negb (Rangeable (info d)) then
    if ctx_done env then Some ([], Some ErrCanceled, d, file)
    else Some ([], None, d, file)
  else
    match create_error env with
    | Some err => Some ([], Some err, d, file)
    | None =>
        let file := (Truncate Create (i64 (TotalSize d))).2 in
        '(launches, err, d, file) ← dl (client env) d file (chunks d);
        if ctx_done env && select_ctx env
        then Some (launches, Some ErrCanceled, d, file)
        else Some (launches, err, d, file)
    end.

(** [Gdl.Do]: [Init], then [Start] unless [Init] failed. *)
Definition Gdl_Do (env : Env) (d : Download) (file : MemFile)
  : option (list Launch * result unit * Download * MemFile) :=
  '(r, d, file) ← Init env d file;
  match r with
  | Ok _ =>
      '(launches, err, d, file) ← Download_Start env d file;
      match err with
      | Some err => Some (launches, Fail err, d, file)
      | None => Some (launches, Ok (), d, file)
      end
  | _ => Some ([], r, d, file)
  end.

(** ** File names ([GetFilename], [Download.Path])

    [filepath.Ext] and [filepath.Base] as they are for slash-separated
    paths (no volume names): both scan the path from its end, so they run
    here over the reversed bytes, with the suffix read so far. *)

Module Filepath.

(** The loop of [filepath.Ext]: back from the end up to a separator, the
    first dot met starts the extension. *)
Fixpoint Ext_scan (back : list ascii) (suffix : string) : string :=
  match back with
  | [] => EmptyString
  | c :: back' =>
      if Ascii.eqb c "/" then EmptyString
      else if Ascii.eqb c "." then String c suffix
      else Ext_scan back' (String c suffix)
  end.

Definition Ext (path : string) : string :=
  Ext_scan (rev (list_ascii_of_string path)) EmptyString.

(** The first loop of [filepath.Base]: trailing separators go. *)
Fixpoint strip_separators (back : list ascii) : list ascii :=
  match back with
  | [] => []
  | c :: back' => if Ascii.eqb c "/" then strip_separators back' else back
  end.

(** The second loop of [filepath.Base]: back to the last separator. *)
Fixpoint last_element (back : list ascii) (suffix : string) : string :=
  match back with
  | [] => suffix
  | c :: back' =>
      if Ascii.eqb c "/" then suffix else last_element back' (String c suffix)
  end.

Definition Base (path : string) : string :=
  match path with
  | EmptyString => "."
  | _ =>
      match last_element
              (strip_separators (rev (list_ascii_of_string path)))
              EmptyString with
      | EmptyString => "/"
      | element => element
      end
  end.

End Filepath.

Definition DefaultFileName : string := "gdl.output".

(** The fields of [Download] that [Path] reads and writes. *)
Record Naming : Type := {
  NamingURL : string;
  Dir : string;
  Dest : string;
  path : string;
  unsafeName : string
}.

Definition set_path (p : string) (d : Naming) : Naming :=
  {| NamingURL := NamingURL d; Dir := Dir d; Dest := Dest d; path := p;
     unsafeName := unsafeName d |}.

Definition set_unsafeName (name : string) (d : Naming) : Naming :=
  {| NamingURL := NamingURL d; Dir := Dir d; Dest := Dest d; path := path d;
     unsafeName := name |}.

Section Names.

(** [url.Parse] followed by the field [Path] of the URL; [None] is a
    parse error. *)
Variable url_Path : string -> option string.

(** [mime.ParseMediaType], as for the resolver. *)
Variable ParseMediaType : string -> option (string * gmap string string).

(** [filepath.Join] of two elements. *)
Variable Join : string -> string -> string.

Definition GetFilename (URL : string) : string :=
  match url_Path URL with
  | Some p =>
      if negb (Mime.string_eqb (Filepath.Ext p) EmptyString)
      then Filepath.Base p
      else DefaultFileName
  | None => DefaultFileName
  end.

(** The name [Path] joins to the directory: the destination given, else
    the name of the header when the resolver accepts it, else the name
    taken from the URL. *)
Definition Path_name (d : Naming) : string :=
  let p := GetFilename (NamingURL d) in
  if negb (Mime.string_eqb (Dest d) EmptyString) then Dest d
  else if negb (Mime.string_eqb (unsafeName d) EmptyString) then
    let name := getNameFromHeader ParseMediaType (unsafeName d) in
    if negb (Mime.string_eqb name EmptyString) then name else p
  else p.

(** [Download.Path]: the path and the session, which remembers it. *)
Definition Path (d : Naming) : string * Naming :=
  if Mime.string_eqb (path d) EmptyString then
    let p := Join (Dir d) (Path_name d) in
    (p, set_path p d)
  else (path d, d).

End Names.

(** ** Header names ([net/textproto])

    [http.Header.Set] stores a value under the canonical form of the
    name.  [is_canonical] is the first loop of
    [textproto.CanonicalMIMEHeaderKey]: it returns the name as it is when
    it meets a byte that no header name holds, or reaches the end
    meeting upper-case letters only at the start and after a hyphen and
    lower-case letters only elsewhere. *)

Module Textproto.




End Textproto.
(** * Properties *)

(** ** Machine integers *)

Module MachineFacts.

Lemma u64_range z : is_u64 (u64 z).
Proof. unfold is_u64, u64. apply Z.mod_pos_bound. lia. Qed.

Lemma u64_small z : is_u64 z -> u64 z = z.
Proof. unfold is_u64, u64. intros H. apply Z.mod_small. exact H. Qed.

Lemma i64_range z : is_i64 (i64 z).
Proof.
  unfold is_i64, i64.
  pose proof (Z.mod_pos_bound (z + 2 ^ 63) (2 ^ 64)). lia.
Qed.

Lemma i64_small z : is_i64 z -> i64 z = z.
Proof.
  unfold is_i64, i64. intros H.
  rewrite Z.mod_small; lia.
Qed.

End MachineFacts.

Import MachineFacts.

(** ** Chunk planner *)

Module PlannerFacts.

Import Planner.

(** What the claims say about a planned list, in their words. *)

(** Every byte of [[0, total)] lies in some chunk. *)
Definition covers (l : list Chunk) (total : Z) : Prop :=
  forall b, 0 <= b < total -> exists c, c ∈ l /\ Start c <= b <= End c.

(** No chunk reaches beyond the last byte. *)
Definition within (l : list Chunk) (total : Z) : Prop :=
  forall c, c ∈ l -> 0 <= Start c /\ End c < total.

(** Two different chunks share no byte. *)
Definition pairwise_disjoint (l : list Chunk) : Prop :=
  forall (i j : nat) ci cj, l !! i = Some ci -> l !! j = Some cj -> i <> j ->
    End ci < Start cj \/ End cj < Start ci.

Definition nonempty_chunks (l : list Chunk) : Prop :=
  forall c, c ∈ l -> Start c <= End c.

Definition starts_increasing (l : list Chunk) : Prop :=
  forall (i : nat) ci cj, l !! i = Some ci -> l !! (S i) = Some cj ->
    Start ci < Start cj.

Definition tiles (l : list Chunk) (total : Z) : Prop :=
  covers l total /\ within l total /\ pairwise_disjoint l
  /\ nonempty_chunks l /\ starts_increasing l.

Section Loop.

Variables total cs n : Z.
Hypothesis Hn : is_u64 n.

(** The fields the loop body computes at index [i]. *)
Definition start_at (i : Z) : Z := u64 (u64 (cs * i) + i).
Definition end_at (i : Z) : Z := u64 (start_at i + cs).

(** The condition of the [if] that ends the loop. *)
Definition stops_at (i : Z) : Prop := total <= end_at i \/ i = n - 1.

Lemma plan_loop_done fuel i : n <= i -> plan_loop fuel total cs n i = [].
Proof.
  intros Hi. destruct fuel as [|fuel]; simpl; [reflexivity|].
  destruct (i <? n) eqn:E; [apply Z.ltb_lt in E; lia | reflexivity].
Qed.

Lemma plan_loop_step fuel i :
  0 <= i < n ->
  plan_loop (S fuel) total cs n i =
    if (total <=? end_at i) || (i =? n - 1)
    then [ {| Start := start_at i; End := u64 (total - 1) |} ]
    else {| Start := start_at i; End := end_at i |}
           :: plan_loop fuel total cs n (i + 1).
Proof.
  intros Hi. simpl.
  assert (E : (i <? n) = true) by (apply Z.ltb_lt; lia). rewrite E.
  rewrite (u64_small (n - 1)) by (unfold is_u64 in *; lia).
  rewrite (u64_small (i + 1)) by (unfold is_u64 in *; lia).
  reflexivity.
Qed.

Lemma stops_at_true i :
  (total <=? end_at i) || (i =? n - 1) = true <-> stops_at i.
Proof.
  unfold stops_at. rewrite orb_true_iff, Z.leb_le, Z.eqb_eq. tauto.
Qed.

Lemma stops_at_false i :
  (total <=? end_at i) || (i =? n - 1) = false <->
  end_at i < total /\ i <> n - 1.
Proof.
  rewrite orb_false_iff, Z.leb_gt, Z.eqb_neq. tauto.
Qed.


Lemma plan_loop_nonempty fuel i :
  0 <= i < n -> plan_loop (S fuel) total cs n i <> [].
Proof.
  intros Hi. rewrite plan_loop_step by lia.
  destruct ((total <=? end_at i) || (i =? n - 1)); discriminate.
Qed.

(** Fuel beyond the iterations that are left changes nothing: the list
    is that of the loop run to its end. *)
Lemma plan_loop_fuel fuel1 : forall fuel2 i,
  0 <= i -> n - i <= Z.of_nat fuel1 -> n - i <= Z.of_nat fuel2 ->
  plan_loop fuel1 total cs n i = plan_loop fuel2 total cs n i.
Proof.
  induction fuel1 as [|fuel1 IH]; intros fuel2 i Hi H1 H2.
  - rewrite !plan_loop_done by lia. reflexivity.
  - destruct (Z.lt_ge_cases i n) as [Hlt|Hge].
    2:{ rewrite !plan_loop_done by lia. reflexivity. }
    destruct fuel2 as [|fuel2]; [lia|].
    rewrite !plan_loop_step by lia.
    destruct ((total <=? end_at i) || (i =? n - 1)); [reflexivity|].
    f_equal. apply IH; lia.
Qed.

(** The chunk at position [j] of the list produced from index [i]. *)
Lemma plan_loop_lookup fuel : forall i (j : nat) c,
  0 <= i -> n - i <= Z.of_nat fuel ->
  plan_loop fuel total cs n i !! j = Some c ->
  let k := i + Z.of_nat j in
  let len := length (plan_loop fuel total cs n i) in
  k < n /\ Start c = start_at k /\
  ((S j = len /\ End c = u64 (total - 1) /\ stops_at k) \/
   ((S j < len)%nat /\ End c = end_at k /\ end_at k < total /\ k < n - 1)).
Proof.
  induction fuel as [|fuel IH]; intros i j c Hi Hfuel Hj.
  { simpl in Hj. discriminate. }
  destruct (Z.lt_ge_cases i n) as [Hlt|Hge].
  2:{ rewrite plan_loop_done in Hj by lia. discriminate. }
  cbv zeta. rewrite plan_loop_step in * by lia.
  destruct ((total <=? end_at i) || (i =? n - 1)) eqn:E.
  - apply stops_at_true in E.
    destruct j as [|j]; [|discriminate].
    simpl in Hj. injection Hj as <-. simpl.
    rewrite Z.add_0_r. split; [lia|]. split; [reflexivity|].
    left. auto.
  - apply stops_at_false in E. destruct E as [E1 E2].
    destruct j as [|j]; simpl in Hj.
    + injection Hj as <-. simpl. rewrite Z.add_0_r.
      split; [lia|]. split; [reflexivity|]. right.
      split; [|split; [reflexivity|split; [exact E1 | lia]]].
      assert (Hne : plan_loop fuel total cs n (i + 1) <> []).
      { destruct fuel as [|fuel]; [lia|].
        apply plan_loop_nonempty. lia. }
      destruct (plan_loop fuel total cs n (i + 1)); [congruence|].
      simpl. lia.
    + apply IH in Hj; [|lia|lia]. cbv zeta in Hj.
      replace (i + Z.of_nat (S j)) with (i + 1 + Z.of_nat j) by lia.
      destruct Hj as (Hk & Hs & He). split; [exact Hk|].
      split; [exact Hs|]. simpl length.
      destruct He as [(H1 & H2 & H3)|(H1 & H2 & H3 & H4)];
        [left|right]; repeat split; auto; lia.
Qed.

End Loop.

End PlannerFacts.

(** ** [Init] on a rangeable resource *)

Module InitFacts.

Import Planner PlannerFacts.


Lemma plan_defined total cs :
  cs <> 0 ->
  plan total cs =
    Ok (plan_loop (Z.to_nat (total / cs)) total cs (total / cs) 0).
Proof.
  intros H. unfold plan, udiv.
  destruct (cs =? 0) eqn:E; [apply Z.eqb_eq in E; lia|]. reflexivity.
Qed.

Lemma quotient_u64 total cs :
  0 < total < 2 ^ 64 -> 0 < cs -> is_u64 (total / cs).
Proof.
  intros Ht Hc. unfold is_u64. split.
  - apply Z.div_pos; lia.
  - apply Z.le_lt_trans with total; [|lia].
    apply Z.div_le_upper_bound; nia.
Qed.

(** Without wrap-around the start of every planned chunk is the integer
    [cs * i + i], and it does not exceed the total size. *)
Lemma start_at_exact total cs n fuel :
  is_u64 n -> 0 < total < 2 ^ 64 -> 0 < cs -> total + cs < 2 ^ 64 ->
  n <= Z.of_nat fuel ->
  forall (i : nat) c,
    plan_loop fuel total cs n 0 !! i = Some c ->
    start_at cs (Z.of_nat i) = cs * Z.of_nat i + Z.of_nat i /\
    cs * Z.of_nat i + Z.of_nat i <= total.
Proof.
  intros Hn Ht Hc Hsum Hfuel. induction i as [|i IH]; intros c Hi.
  - unfold start_at. change (Z.of_nat 0) with 0. rewrite Z.mul_0_r.
    rewrite (u64_small 0) by (unfold is_u64; lia).
    rewrite (u64_small (0 + 0)) by (unfold is_u64; lia). lia.
  - assert (Hprev : is_Some (plan_loop fuel total cs n 0 !! i)).
    { apply lookup_lt_is_Some. apply lookup_lt_Some in Hi. lia. }
    destruct Hprev as [c' Hc'].
    destruct (IH _ Hc') as [Hs Hle].
    pose proof (plan_loop_lookup total cs n Hn fuel 0 i c'
                  ltac:(lia) ltac:(lia) Hc') as (Hk & _ & Hend).
    cbv zeta in Hend. rewrite Z.add_0_l in *.
    destruct Hend as [(Hlast & _)|(_ & _ & Hlt & _)].
    { apply lookup_lt_Some in Hi. lia. }
    unfold end_at in Hlt. rewrite Hs in Hlt.
    rewrite u64_small in Hlt by (unfold is_u64; nia).
    unfold start_at.
    replace (Z.of_nat (S i)) with (Z.of_nat i + 1) by lia.
    rewrite (u64_small (cs * _)) by (unfold is_u64; nia).
    rewrite u64_small by (unfold is_u64; nia).
    nia.
Qed.



(** The shape of the planned list when nothing wraps around: chunk [i]
    starts at [i * (cs + 1)]; every chunk but the last has [cs + 1] bytes
    and ends below [total]; the last one ends at [total - 1] and starts
    at [total] at most. *)
Lemma planned_chunk total cs (i : nat) c :
  0 < total < 2 ^ 64 -> 0 < cs -> total + cs < 2 ^ 64 ->
  let n := total / cs in
  let l := plan_loop (Z.to_nat n) total cs n 0 in
  l !! i = Some c ->
  Start c = Z.of_nat i * (cs + 1) /\ Start c <= total /\ Z.of_nat i < n /\
  ((S i = length l /\ End c = total - 1) \/
   ((S i < length l)%nat /\ End c = Start c + cs /\ End c < total)).
Proof.
  intros Ht Hc Hsum n l Hi.
  pose proof (quotient_u64 total cs Ht Hc) as Hn. fold n in Hn.
  assert (Hfuel : n <= Z.of_nat (Z.to_nat n)) by (unfold is_u64 in Hn; lia).
  destruct (start_at_exact total cs n (Z.to_nat n) Hn Ht Hc Hsum Hfuel i c Hi)
    as [Hx Hle].
  pose proof (plan_loop_lookup total cs n Hn (Z.to_nat n) 0 i c
                ltac:(lia) ltac:(lia) Hi) as (Hk & Hs & He).
  cbv zeta in He. rewrite Z.add_0_l in *. fold l in He.
  rewrite Hs, Hx. split; [lia|]. split; [lia|]. split; [exact Hk|].
  destruct He as [(Hl & He & _)|(Hl & He & Hlt & _)].
  - left. split; [exact Hl|]. rewrite He. apply u64_small. unfold is_u64. lia.
  - right. split; [exact Hl|].
    unfold end_at in He, Hlt. rewrite Hx in He, Hlt.
    rewrite u64_small in He, Hlt by (unfold is_u64; nia).
    split; [lia|]. rewrite He. exact Hlt.
Qed.

(** Where the planner does tile.  With a chunk size that is at most the
    total size, sizes that stay within 64 bits, and a total size that is
    not [k * (cs + 1)] for some [k >= cs], the planned list tiles
    [[0, total)]. *)
Lemma plan_tiles total cs :
  0 < cs <= total -> total + cs < 2 ^ 64 ->
  (total mod (cs + 1) <> 0 \/ total / (cs + 1) < cs) ->
  exists l, plan total cs = Ok l /\ tiles l total.
Proof.
  intros Hcs Hsum Hgood.
  assert (Ht : 0 < total < 2 ^ 64) by lia.
  rewrite plan_defined by lia. eexists. split; [reflexivity|].
  set (n := total / cs). set (l := plan_loop (Z.to_nat n) total cs n 0).
  pose proof (quotient_u64 total cs Ht ltac:(lia)) as Hn. fold n in Hn.
  assert (Hn1 : 1 <= n).
  { unfold n. apply Z.div_le_lower_bound; lia. }
  assert (Hchunk : forall (i : nat) c, l !! i = Some c ->
            Start c = Z.of_nat i * (cs + 1) /\ Start c <= total /\
            Z.of_nat i < n /\
            ((S i = length l /\ End c = total - 1) \/
             ((S i < length l)%nat /\ End c = Start c + cs /\ End c < total))).
  { intros i c Hi. apply planned_chunk; (assumption || lia). }
  assert (Hne : l <> []).
  { unfold l. destruct (Z.to_nat n) as [|k] eqn:Ek; [lia|].
    apply plan_loop_nonempty; [exact Hn|lia]. }
  (* the last chunk does not start at [total] *)
  assert (Hlast : forall (i : nat) c, l !! i = Some c -> S i = length l ->
            Start c < total).
  { intros i c Hi Hl. destruct (Hchunk i c Hi) as (Hs & Hle & Hin & _).
    destruct (Z.eq_dec (Start c) total) as [Heq|]; [exfalso|lia].
    rewrite Hs in Heq.
    assert (Hmod : total mod (cs + 1) = 0)
      by (rewrite <- Heq; apply Z.mod_mul; lia).
    assert (Hdiv : total / (cs + 1) = Z.of_nat i)
      by (rewrite <- Heq; apply Z.div_mul; lia).
    assert (Hmul : cs * n <= total) by (apply Z.mul_div_le; lia).
    destruct Hgood as [Hg|Hg]; [contradiction|]. nia. }
  assert (Hwf : forall (i : nat) c, l !! i = Some c ->
            0 <= Start c /\ Start c <= End c /\ End c < total).
  { intros i c Hi. destruct (Hchunk i c Hi) as (Hs & Hle & Hin & [[Hl He]|(Hl & He & Hlt)]).
    - pose proof (Hlast i c Hi Hl). lia.
    - lia. }
  repeat split.
  - (* covers *)
    intros b Hb.
    set (q := b / (cs + 1)).
    assert (Hq : q * (cs + 1) <= b < (q + 1) * (cs + 1)).
    { unfold q. pose proof (Z.mul_div_le b (cs + 1) ltac:(lia)).
      pose proof (Z.mul_succ_div_gt b (cs + 1) ltac:(lia)). lia. }
    assert (Hq0 : 0 <= q) by (unfold q; apply Z.div_pos; lia).
    destruct (decide (Z.to_nat q < length l - 1)%nat) as [Hin|Hout].
    + destruct (lookup_lt_is_Some_2 l (Z.to_nat q) ltac:(lia)) as [c Hc].
      exists c. split; [eapply list_elem_of_lookup_2; exact Hc|].
      destruct (Hchunk _ _ Hc) as (Hs & _ & _ & [[Hl _]|(_ & He & _)]); [lia|].
      rewrite He, Hs, Z2Nat.id by lia. lia.
    + assert (Hlen : (0 < length l)%nat) by (destruct l; [congruence|simpl; lia]).
      destruct (lookup_lt_is_Some_2 l (length l - 1) ltac:(lia)) as [c Hc].
      exists c. split; [eapply list_elem_of_lookup_2; exact Hc|].
      destruct (Hchunk _ _ Hc) as (Hs & _ & _ & [[_ He]|(Hl & _)]); [|lia].
      rewrite He, Hs. split; [|lia]. nia.
  - apply list_elem_of_lookup_1 in H. destruct H as [i Hi].
    destruct (Hwf i c Hi). lia.
  - apply list_elem_of_lookup_1 in H. destruct H as [i Hi].
    destruct (Hwf i c Hi). lia.
  - (* pairwise disjoint *)
    intros i j ci cj Hi Hj Hij.
    assert (Hord : forall (a b : nat) ca cb, l !! a = Some ca -> l !! b = Some cb ->
              (a < b)%nat -> End ca < Start cb).
    { intros a b ca cb Ha Hb Hab.
      destruct (Hchunk a ca Ha) as (Hsa & _ & _ & [[Hl _]|(_ & He & _)]).
      - apply lookup_lt_Some in Hb. lia.
      - destruct (Hchunk b cb Hb) as (Hsb & _). rewrite He, Hsa, Hsb. nia. }
    destruct (Nat.lt_ge_cases i j) as [Hlt|Hge].
    + left. eapply Hord; eassumption.
    + right. eapply Hord; [exact Hj|exact Hi|lia].
  - (* non-empty chunks *)
    intros c Hc. apply list_elem_of_lookup_1 in Hc. destruct Hc as [i Hi].
    destruct (Hwf i c Hi). lia.
  - (* starts increase *)
    intros i ci cj Hi Hj.
    destruct (Hchunk i ci Hi) as (Hsi & _).
    destruct (Hchunk (S i) cj Hj) as (Hsj & _).
    rewrite Hsi, Hsj. nia.
Qed.

(** C1.  The planned list is not always a tiling.  For a rangeable
    resource of 2 bytes and a chunk size of 1 byte [Init] plans
    [0-1] and [2-1]: the second chunk starts after its own end and
    beyond the last byte, so the list does not tile [[0, 2)]. *)
Theorem Init_plan_not_tiling :
  let inf := {| Size := 2; Rangeable := true |} in
  let d := {| Concurrency := 2; URL := "http://example.org/a.bin";
              ChunkSize := 1; MinChunkSize := 0; MaxChunkSize := 0;
              Header := []; size := 1; info := Info_zero;
              chunks := [] |} in
  exists d', Init_after_probe 4 inf d = Ok d' /\
    chunks d' = [ {| Start := 0; End := 1 |}; {| Start := 2; End := 1 |} ] /\
    ~ tiles (chunks d') 2.
Proof.
  intros inf d. eexists. split; [vm_compute; reflexivity|].
  split; [reflexivity|].
  intros (_ & _ & _ & Hne & _).
  specialize (Hne {| Start := 2; End := 1 |}). simpl in Hne.
  assert (2 <= 1) by (apply Hne; set_solver). lia.
Qed.

(** The same planner leaves the whole resource uncovered when the chunk
    size exceeds the total size: 1 byte, chunk size 2, no chunk. *)
Lemma Init_plan_empty_not_covering :
  plan 1 2 = Ok [] /\ ~ covers [] 1.
Proof.
  split; [reflexivity|].
  intros H. destruct (H 0 ltac:(lia)) as (c & Hc & _).
  set_solver.
Qed.

End InitFacts.

(** ** Default policy *)

Module PolicyFacts.

Import Policy.

(** C5.  With one CPU the default concurrency is 3, outside [[4, 20]]:
    the product 3 is neither above 20 nor at most 2, so neither branch
    changes it. *)
Theorem getDefaultConcurrency_one_cpu :
  getDefaultConcurrency 1 = 3 /\ ~ (4 <= getDefaultConcurrency 1 <= 20).
Proof. split; [reflexivity|]. vm_compute. intros [H _]. apply H. reflexivity. Qed.

(** What does hold: at most 20 always, and at least 3 for every count
    of CPUs; at least 4 from two CPUs on. *)
Lemma getDefaultConcurrency_range numCPU :
  3 <= getDefaultConcurrency numCPU <= 20.
Proof.
  unfold getDefaultConcurrency.
  pose proof (u64_range (i64 (numCPU * 3))) as H. unfold is_u64 in H.
  destruct (20 <? u64 (i64 (numCPU * 3))) eqn:E1.
  - simpl. lia.
  - apply Z.ltb_ge in E1.
    destruct (u64 (i64 (numCPU * 3)) <=? 2) eqn:E2.
    + lia.
    + apply Z.leb_gt in E2. lia.
Qed.

Lemma getDefaultConcurrency_two_cpus numCPU :
  2 <= numCPU < 2 ^ 61 -> 4 <= getDefaultConcurrency numCPU <= 20.
Proof.
  intros H. pose proof (getDefaultConcurrency_range numCPU) as [_ Hle].
  split; [|exact Hle]. unfold getDefaultConcurrency.
  rewrite i64_small by (unfold is_i64; lia).
  rewrite u64_small by (unfold is_u64; lia).
  destruct (20 <? numCPU * 3) eqn:E1; simpl; [lia|].
  destruct (numCPU * 3 <=? 2) eqn:E2; lia.
Qed.

Lemma getDefaultChunkSize_defined totalSize min max concurrency :
  concurrency <> 0 ->
  exists cs, getDefaultChunkSize totalSize min max concurrency = Ok cs.
Proof.
  intros H. unfold getDefaultChunkSize, udiv.
  destruct (concurrency =? 0) eqn:E; [apply Z.eqb_eq in E; lia|].
  simpl. eexists. reflexivity.
Qed.

(** C6, as stated, fails: a 3 MiB resource with no bounds and a
    concurrency of 4 gets the 2 MiB default minimum, more than half of
    the total size. *)
Lemma getDefaultChunkSize_above_half :
  ~ (forall totalSize min max concurrency,
       0 < totalSize < 2 ^ 64 -> is_u64 min -> is_u64 max ->
       1 <= concurrency < 2 ^ 64 ->
       exists cs, getDefaultChunkSize totalSize min max concurrency = Ok cs /\
                  cs <= totalSize / 2 /\ (0 < max -> cs <= max)).
Proof.
  intros H.
  destruct (H 3145728 0 0 4) as (cs & Hcs & Hhalf & _);
    try (unfold is_u64; lia).
  vm_compute in Hcs. injection Hcs as <-.
  vm_compute in Hhalf. apply Hhalf. reflexivity.
Qed.

(** C6, amended.  For a positive total size and a concurrency of at least
    one the default chunk size is defined, is below the total size, and
    does not exceed an explicit [max > 0]. *)
Theorem getDefaultChunkSize_bounds totalSize min max concurrency :
  0 < totalSize < 2 ^ 64 -> is_u64 min -> is_u64 max ->
  1 <= concurrency < 2 ^ 64 ->
  exists cs, getDefaultChunkSize totalSize min max concurrency = Ok cs /\
             0 <= cs < totalSize /\ (0 < max -> cs <= max).
Proof.
  unfold is_u64. intros Ht Hmin Hmax Hc.
  unfold getDefaultChunkSize, udiv.
  destruct (concurrency =? 0) eqn:E; [apply Z.eqb_eq in E; lia|].
  simpl. eexists. split; [reflexivity|].
  assert (Hq : 0 <= totalSize / concurrency) by (apply Z.div_pos; lia).
  assert (Hh : 0 <= totalSize / 2 < totalSize).
  { split; [apply Z.div_pos; lia|]. apply Z.div_lt; lia. }
  set (cs1 := if 102400000 <=? totalSize / concurrency
              then totalSize / concurrency / 2 else totalSize / concurrency).
  assert (H1 : 0 <= cs1).
  { unfold cs1. destruct (102400000 <=? _); [apply Z.div_pos|]; lia. }
  set (m := if min =? 0
            then if totalSize <=? 2097152 then totalSize / 2 else 2097152
            else min).
  assert (Hm : 0 <= m).
  { unfold m. destruct (min =? 0); [destruct (totalSize <=? 2097152)|]; lia. }
  set (cs2 := if cs1 <? m then m else cs1).
  assert (H2 : 0 <= cs2) by (unfold cs2; destruct (cs1 <? m); lia).
  set (cs3 := if (0 <? max) && (max <? cs2) then max else cs2).
  assert (H3 : 0 <= cs3 /\ (0 < max -> cs3 <= max)).
  { unfold cs3. destruct (0 <? max) eqn:Ea; simpl.
    - destruct (max <? cs2) eqn:Eb.
      + lia.
      + apply Z.ltb_ge in Eb. lia.
    - apply Z.ltb_ge in Ea. lia. }
  destruct (totalSize <=? cs3) eqn:E4.
  - apply Z.leb_le in E4. lia.
  - apply Z.leb_gt in E4. lia.
Qed.

Lemma getDefaultChunkSize_bounds_witness :
  exists cs, getDefaultChunkSize 3145728 0 1048576 4 = Ok cs /\
             0 <= cs < 3145728 /\ (0 < 1048576 -> cs <= 1048576).
Proof.
  apply getDefaultChunkSize_bounds; unfold is_u64; lia.
Defined.

End PolicyFacts.

(** ** Strings *)

Module GoStringsFacts.

Import GoStrings.

(** [sub] occurs in [s]. *)
Definition substring (sub s : string) : Prop :=
  exists a b, s = a +:+ sub +:+ b.

Lemma append_cons c a b : String c a +:+ b = String c (a +:+ b).
Proof. reflexivity. Qed.

Lemma append_nil b : EmptyString +:+ b = b.
Proof. reflexivity. Qed.

Lemma HasPrefix_spec s prefix :
  HasPrefix s prefix = true <-> exists b, s = prefix +:+ b.
Proof.
  revert s. induction prefix as [|a p IH]; intros s; simpl.
  - split; [intros _; exists s; reflexivity | intros _; destruct s; reflexivity].
  - destruct s as [|b s]; simpl.
    + split; [discriminate | intros [r Hr]; discriminate].
    + destruct (Ascii.eqb_spec a b) as [->|Hne].
      * rewrite IH. split; intros [r Hr]; exists r.
        -- rewrite append_cons, Hr. reflexivity.
        -- rewrite append_cons in Hr. congruence.
      * split; [discriminate|]. intros [r Hr].
        rewrite append_cons in Hr. congruence.
Qed.

Lemma Contains_spec s sub :
  Contains s sub = true <-> substring sub s.
Proof.
  unfold substring. induction s as [|c s IH].
  - cbn [Contains]. rewrite orb_false_r, HasPrefix_spec. split.
    + intros [b Hb]. exists EmptyString, b. exact Hb.
    + intros (a & b & H). destruct a; [exists b; exact H|].
      rewrite append_cons in H. discriminate.
  - cbn [Contains]. rewrite orb_true_iff, HasPrefix_spec, IH. split.
    + intros [[b Hb]|(a & b & H)].
      * exists EmptyString, b. exact Hb.
      * exists (String c a), b. rewrite append_cons, H. reflexivity.
    + intros (a & b & H). destruct a as [|x a].
      * left. exists b. exact H.
      * right. exists a, b. rewrite append_cons in H. congruence.
Qed.

(** *** [Split] *)

Fixpoint has_byte (sep : ascii) (s : string) : Prop :=
  match s with
  | EmptyString => False
  | String c s' => c = sep \/ has_byte sep s'
  end.





(** *** [ParseUint] *)









End GoStringsFacts.


(** ** Filename resolver *)

Module ResolverFacts.

Import GoStrings GoStringsFacts.

(** A filename the resolver refuses: it holds a path traversal segment or
    a path separator. *)
Definition unsafe_name (name : string) : Prop :=
  substring ".." name \/ substring "/" name \/ substring "\" name.

Lemma unsafe_name_test name :
  Contains name ".." || Contains name "/" || Contains name "\" = true
  <-> unsafe_name name.
Proof.
  unfold unsafe_name. rewrite !orb_true_iff, !Contains_spec. tauto.
Qed.

(** C7, as stated, fails: the value [text/plain; filename=a.txt] holds a
    slash and parses, and the resolver returns [a.txt]. *)
Lemma getNameFromHeader_slash_outside_filename :
  ~ (forall val,
       unsafe_name val \/ Mime.ParseMediaType val = None ->
       getNameFromHeader Mime.ParseMediaType val = EmptyString).
Proof.
  intros H.
  specialize (H "text/plain; filename=a.txt").
  assert (Hv : getNameFromHeader Mime.ParseMediaType
                 "text/plain; filename=a.txt" = "a.txt")
    by (vm_compute; reflexivity).
  rewrite Hv in H. discriminate H.
  left. right. left. exists "text", "plain; filename=a.txt". reflexivity.
Qed.

(** C7, amended.  Whatever the parser of media types, the resolver
    returns the empty string for every value that fails to parse and for
    every value whose [filename] parameter holds [..], a slash or a
    backslash. *)
Theorem getNameFromHeader_rejects
    (ParseMediaType : string -> option (string * gmap string string))
    (val : string) :
  (ParseMediaType val = None \/
   exists mediatype params,
     ParseMediaType val = Some (mediatype, params) /\
     unsafe_name (param params "filename")) ->
  getNameFromHeader ParseMediaType val = EmptyString.
Proof.
  unfold getNameFromHeader.
  intros [->|(mediatype & params & -> & Hu)]; [reflexivity|].
  apply unsafe_name_test in Hu. rewrite Hu. reflexivity.
Qed.

Lemma getNameFromHeader_rejects_witness :
  getNameFromHeader Mime.ParseMediaType "attachment; filename=..a.txt"
  = EmptyString.
Proof.
  apply getNameFromHeader_rejects. right.
  eexists _, _. split; [vm_compute; reflexivity|].
  left. exists EmptyString, "a.txt". vm_compute. reflexivity.
Defined.

(** Every other value gives the [filename] parameter as it was parsed. *)
Lemma getNameFromHeader_accepts
    (ParseMediaType : string -> option (string * gmap string string))
    val mediatype params :
  ParseMediaType val = Some (mediatype, params) ->
  ~ unsafe_name (param params "filename") ->
  getNameFromHeader ParseMediaType val = param params "filename".
Proof.
  unfold getNameFromHeader. intros -> Hu.
  destruct (Contains _ ".." || Contains _ "/" || Contains _ "\") eqn:E;
    [|reflexivity].
  apply unsafe_name_test in E. contradiction.
Qed.

End ResolverFacts.


(** ** A server for the examples

    It answers every request alike: status 206, one byte of body, and a
    [Content-Range] that announces five bytes. *)

Module Example.

Definition probe_response : Response :=
  {| StatusCode := 206;
     ResponseHeader := {[ "Content-Range" := "bytes 0-0/5" ]};
     ContentLength := 1;
     ResponseBody := {| pending := [[Byte.x68]]; ending := EOF |} |}.

Definition server : Client :=
  {| url_error := fun _ => None; Client_Do := fun _ => inr probe_response |}.

Definition env : Env :=
  {| client := server; numCPU := 4; create_error := None;
     ctx_done := false; select_ctx := false |}.

Definition session (chunkSize : Z) : Download :=
  {| Concurrency := 0; URL := "http://example.org/a.bin";
     ChunkSize := chunkSize; MinChunkSize := 0; MaxChunkSize := 0;
     Header := []; size := 0; info := Info_zero; chunks := [] |}.

(** A server that honours ranges over [resource]: a request whose
    [Range] names bytes of the resource gets them with status 206, any
    other request gets the whole resource with status 200. *)
Definition ranges (len : nat) : list Chunk :=
  a ← seq 0 len;
  b ← seq a (len - a);
  [ {| Start := Z.of_nat a; End := Z.of_nat b |} ].

Definition range_server (resource : list byte) : Client :=
  {| url_error := fun _ => None;
     Client_Do := fun req =>
       let total := Z.of_nat (length resource) in
       match list_find
               (fun c => contentRange c = Header_Get (RequestHeader req) "Range")
               (ranges (length resource)) with
       | Some (_, c) =>
           inr {| StatusCode := 206;
                  ResponseHeader :=
                    {[ "Content-Range" :=
                         "bytes " +:+ GoStrings.decimal (Start c) +:+ "-"
                         +:+ GoStrings.decimal (End c) +:+ "/"
                         +:+ GoStrings.decimal total ]};
                  ContentLength := End c - Start c + 1;
                  ResponseBody :=
                    {| pending :=
                         [ take (Z.to_nat (End c - Start c + 1))
                             (drop (Z.to_nat (Start c)) resource) ];
                       ending := EOF |} |}
       | None =>
           inr {| StatusCode := 200; ResponseHeader := ∅;
                  ContentLength := total;
                  ResponseBody := {| pending := [resource]; ending := EOF |} |}
       end |}.

Definition range_env (resource : list byte) : Env :=
  {| client := range_server resource; numCPU := 4; create_error := None;
     ctx_done := false; select_ctx := false |}.

(** A server without ranges: every request gets the whole resource with
    status 200. *)
Definition plain_response (resource : list byte) : Response :=
  {| StatusCode := 200; ResponseHeader := ∅;
     ContentLength := Z.of_nat (length resource);
     ResponseBody := {| pending := [resource]; ending := EOF |} |}.

Definition plain_env (resource : list byte) : Env :=
  {| client := {| url_error := fun _ => None;
                  Client_Do := fun _ => inr (plain_response resource) |};
     numCPU := 4; create_error := None;
     ctx_done := false; select_ctx := false |}.

End Example.



(** ** Probe *)

Module ProbeFacts.

Import GoStrings GoStringsFacts.




Lemma string_eqb_true a : Mime.string_eqb a a = true.
Proof. unfold Mime.string_eqb. apply bool_decide_eq_true. reflexivity. Qed.







End ProbeFacts.


(** ** Offset writer *)

Module OffsetWriterFacts.

(** C8.  [Write] on an offset writer with offset [o] makes one positional
    write of the buffer at [o] on the sink; it returns the count and the
    error of that write unchanged, keeps the sink as the write left it
    and advances the offset by the count ([int64] addition, the integer
    sum when that fits); so the next [Write] is a positional write at
    [o] plus the count. *)
Theorem OffsetWriter_Write_spec (S : Type) (WS : WriterAt S)
    (dst : OffsetWriter S) (b : list byte) :
  exists n err s,
    WriteAt (sink dst) b (offset dst) = (n, err, s) /\
    Write dst b = (n, err, {| sink := s; offset := i64 (offset dst + n) |}) /\
    (is_i64 (offset dst + n) ->
       offset (Write dst b).2 = offset dst + n) /\
    forall b2,
      Write (Write dst b).2 b2 =
        let '(n2, err2, s2) := WriteAt s b2 (i64 (offset dst + n)) in
        (n2, err2, {| sink := s2; offset := i64 (i64 (offset dst + n) + n2) |}).
Proof.
  assert (Hi : forall a n, i64 (a + i64 n) = i64 (a + n)).
  { intros a n. unfold i64.
    replace (a + ((n + 2 ^ 63) mod 2 ^ 64 - 2 ^ 63) + 2 ^ 63)
      with (a + (n + 2 ^ 63) mod 2 ^ 64) by lia.
    rewrite Zplus_mod_idemp_r. f_equal. f_equal. lia. }
  destruct (WriteAt (sink dst) b (offset dst)) as [[n err] s] eqn:E.
  exists n, err, s. split; [reflexivity|].
  assert (Hw : Write dst b =
               (n, err, {| sink := s; offset := i64 (offset dst + n) |})).
  { unfold Write, OffsetWriter_Write. rewrite E, Hi. reflexivity. }
  split; [exact Hw|]. rewrite Hw. cbn [snd sink offset]. split.
  - intros Hr. apply i64_small. exact Hr.
  - intros b2. unfold Write at 1, OffsetWriter_Write. cbn [sink offset].
    destruct (WriteAt s b2 (i64 (offset dst + n))) as [[n2 err2] s2].
    rewrite Hi. reflexivity.
Qed.

End OffsetWriterFacts.

(** ** Byte counter *)

Module CounterFacts.

(** The session after a sequence of counting writes. *)
Definition writes (d : Download) (bs : list (list byte)) : Download :=
  foldl (fun d b => (Write d b).2) d bs.

(** The values of [Size()] after each write of a sequence. *)
Fixpoint observed (d : Download) (bs : list (list byte)) : list Z :=
  match bs with
  | [] => []
  | b :: bs => Download_Size (Write d b).2 :: observed (Write d b).2 bs
  end.

Definition total_length (bs : list (list byte)) : Z :=
  Z.of_nat (length (concat bs)).

Lemma Download_Write_eq d b :
  Write d b =
    (Z.of_nat (length b), None,
     set_size (u64 (size d + Z.of_nat (length b))) d).
Proof.
  unfold Write, Download_Write. f_equal. f_equal. unfold u64.
  rewrite Zplus_mod_idemp_r. reflexivity.
Qed.

(** C9, as stated, fails at the end of the range of the counter: one more
    byte after [2^64 - 1] bytes brings [Size()] back to 0. *)
Lemma counter_wraps :
  ~ (forall d b, is_u64 (size d) ->
       Download_Size d <= Download_Size (Write d b).2).
Proof.
  intros H.
  specialize (H {| Concurrency := 1; URL := "http://example.org/a.bin";
                   ChunkSize := 1; MinChunkSize := 0; MaxChunkSize := 0;
                   Header := []; size := 2 ^ 64 - 1; info := Info_zero;
                   chunks := [] |} [Byte.x00]).
  vm_compute in H. apply H; [split; [discriminate|reflexivity]|reflexivity].
Qed.

(** One write: the count returned is [len(b)], there is no error, and the
    counter grows by exactly [len(b)] as long as it stays below [2^64]. *)
Lemma Download_Write_grows d b :
  is_u64 (size d) -> size d + Z.of_nat (length b) < 2 ^ 64 ->
  (Write d b).1 = (Z.of_nat (length b), None) /\
  Download_Size (Write d b).2 = Download_Size d + Z.of_nat (length b) /\
  Download_Size d <= Download_Size (Write d b).2.
Proof.
  intros Hd Hb. rewrite Download_Write_eq. cbn [fst snd].
  unfold Download_Size. cbn [size set_size].
  rewrite u64_small by (unfold is_u64 in *; lia).
  split; [reflexivity|]. lia.
Qed.

Lemma observed_sorted d bs :
  is_u64 (size d) -> size d + total_length bs < 2 ^ 64 ->
  Download_Size (writes d bs) = Download_Size d + total_length bs /\
  forall (i j : nat) x y,
    (i <= j)%nat ->
    (Download_Size d :: observed d bs) !! i = Some x ->
    (Download_Size d :: observed d bs) !! j = Some y ->
    x <= y.
Proof.
  unfold total_length. revert d.
  induction bs as [|b bs IH]; intros d Hd Hsum.
  - simpl. split; [lia|]. intros i j x y Hij Hi Hj.
    destruct i as [|i]; destruct j as [|j]; simpl in *;
      rewrite ?lookup_nil in *; try discriminate; try lia.
    simplify_eq. lia.
  - cbn [concat] in Hsum. rewrite length_app, Nat2Z.inj_add in Hsum.
    destruct (Download_Write_grows d b Hd ltac:(lia)) as (_ & Hs & Hle).
    destruct (IH (Write d b).2) as [Ht Hmono].
    { unfold Download_Size in Hs. rewrite Hs. unfold is_u64 in *. lia. }
    { unfold Download_Size in Hs. rewrite Hs. lia. }
    split.
    + cbn [writes foldl concat]. fold (writes (Write d b).2 bs).
      rewrite Ht, Hs, length_app, Nat2Z.inj_add. lia.
    + intros i j x y Hij Hi Hj. cbn [observed] in Hi, Hj.
      destruct i as [|i].
      * simpl in Hi. injection Hi as <-.
        destruct j as [|j]; [simpl in Hj; injection Hj as <-; lia|].
        simpl in Hj.
        specialize (Hmono 0%nat j (Download_Size (Write d b).2) y
                      ltac:(lia) eq_refl Hj). lia.
      * destruct j as [|j]; [lia|]. simpl in Hi, Hj.
        apply (Hmono i j x y); [lia|exact Hi|exact Hj].
Qed.

(** C9, amended.  Across every sequence of counting writes that keeps the
    total below [2^64], each [Write] with buffer [b] returns [len(b)] and
    no error and adds exactly [len(b)] to the counter, and the values of
    [Size()] never go down: a later observation is never below an earlier
    one. *)
Theorem counter_monotone (d : Download) (bs : list (list byte)) :
  is_u64 (size d) ->
  size d + total_length bs < 2 ^ 64 ->
  (forall d' b, is_u64 (size d') -> size d' + Z.of_nat (length b) < 2 ^ 64 ->
     (Write d' b).1 = (Z.of_nat (length b), None) /\
     Download_Size (Write d' b).2 = Download_Size d' + Z.of_nat (length b)) /\
  Download_Size (writes d bs) = Download_Size d + total_length bs /\
  forall (i j : nat) x y,
    (i <= j)%nat ->
    (Download_Size d :: observed d bs) !! i = Some x ->
    (Download_Size d :: observed d bs) !! j = Some y ->
    x <= y.
Proof.
  intros Hd Hsum. split.
  - intros d' b Hd' Hb.
    destruct (Download_Write_grows d' b Hd' Hb) as (H1 & H2 & _). auto.
  - apply observed_sorted; assumption.
Qed.

Lemma counter_monotone_witness :
  let d := {| Concurrency := 1; URL := "http://example.org/a.bin";
              ChunkSize := 1; MinChunkSize := 0; MaxChunkSize := 0;
              Header := []; size := 7; info := Info_zero; chunks := [] |} in
  Download_Size (writes d [[Byte.x01; Byte.x02]; []; [Byte.x03]]) = 10.
Proof.
  intros d.
  destruct (counter_monotone d [[Byte.x01; Byte.x02]; []; [Byte.x03]])
    as (_ & H & _).
  - unfold is_u64. simpl. lia.
  - vm_compute. reflexivity.
  - rewrite H. reflexivity.
Defined.

End CounterFacts.


(** ** Copying a body into an offset writer *)

Module CopyFacts.

(** *** Positional writes on byte lists *)

Lemma write_at_nil off data : write_at off [] data = data.
Proof. reflexivity. Qed.

Lemma write_at_length off b data :
  b <> [] ->
  length (write_at off b data) = Nat.max (off + length b) (length data).
Proof.
  intros Hb. destruct b as [|x b]; [congruence|].
  unfold write_at. rewrite !length_app, length_resize, length_drop. lia.
Qed.

(** Two writes one after the other are one write of the two buffers. *)
Lemma write_at_app off a b data :
  write_at (off + length a) b (write_at off a data) = write_at off (a ++ b) data.
Proof.
  destruct a as [|x a].
  { simpl. rewrite Nat.add_0_r. reflexivity. }
  destruct b as [|y b].
  { rewrite app_nil_r. reflexivity. }
  unfold write_at at 1 3. cbn [app].
  set (a' := x :: a). set (b' := y :: b).
  set (X := resize off Byte.x00 data).
  assert (HX : length X = off) by apply length_resize.
  change (write_at off a' data) with (X ++ a' ++ drop (off + length a') data).
  rewrite (app_assoc X a').
  rewrite resize_app by (rewrite length_app; lia).
  rewrite drop_app_ge by (rewrite length_app; lia).
  rewrite drop_drop, length_app, HX.
  replace (off + length a' + (off + length a' + length b' - (off + length a')))%nat
    with (off + length (a' ++ b'))%nat by (rewrite length_app; lia).
  rewrite <- !app_assoc. reflexivity.
Qed.

(** *** The contract of a positional writer

    What [io.WriterAt] asks of an implementation: the count is between 0
    and [len(b)], a count below [len(b)] comes with an error, and the
    bytes counted are in the sink at the offset. *)
Class WriterAtLaws (S : Type) `{WriterAt S} : Type := {
  bytes_of : S -> list byte;
  WriteAt_count : forall s b off n err s',
    WriteAt s b off = (n, err, s') -> 0 <= n <= Z.of_nat (length b);
  WriteAt_short : forall s b off n s',
    WriteAt s b off = (n, None, s') -> n = Z.of_nat (length b);
  WriteAt_bytes : forall s b off n err s',
    WriteAt s b off = (n, err, s') -> 0 <= off ->
    bytes_of s' = write_at (Z.to_nat off) (take (Z.to_nat n) b) (bytes_of s)
}.

#[export] Instance MemFile_laws : WriterAtLaws MemFile.
Proof.
  refine {| bytes_of := content |}.
  - intros s b off n err s'. unfold WriteAt, MemFile_WriteAt.
    destruct (off <? 0); intros [= <- _ _]; lia.
  - intros s b off n s'. unfold WriteAt, MemFile_WriteAt.
    destruct (off <? 0); [discriminate|]. intros [= <- _]. reflexivity.
  - intros s b off n err s'. unfold WriteAt, MemFile_WriteAt.
    destruct (off <? 0) eqn:E; [apply Z.ltb_lt in E; lia|].
    intros [= <- _ <-] _. cbn [content].
    rewrite Nat2Z.id, take_ge by lia. reflexivity.
Defined.

Lemma MemFile_Write (f : MemFile) (o : Z) (b : list byte) :
  0 <= o ->
  Write {| sink := f; offset := o |} b =
    (Z.of_nat (length b), None,
     {| sink := {| content := write_at (Z.to_nat o) b (content f) |};
        offset := i64 (o + i64 (Z.of_nat (length b))) |}).
Proof.
  intros Ho. unfold Write, OffsetWriter_Write, WriteAt, MemFile_WriteAt.
  cbn [sink offset].
  assert (E : (o <? 0) = false) by (apply Z.ltb_ge; exact Ho).
  rewrite E. reflexivity.
Qed.

(** On the destination file two writes through an offset writer are one
    positional write of the two buffers: the second lands right behind
    the first. *)
Lemma OffsetWriter_Write_sequence (f : MemFile) (o : Z) (b1 b2 : list byte) :
  0 <= o -> o + Z.of_nat (length b1) + Z.of_nat (length b2) < 2 ^ 63 ->
  let dst := {| sink := f; offset := o |} in
  let dst2 := (Write (Write dst b1).2 b2).2 in
  content (sink dst2) = write_at (Z.to_nat o) (b1 ++ b2) (content f) /\
  offset dst2 = o + Z.of_nat (length b1) + Z.of_nat (length b2).
Proof.
  intros Ho Hfit dst dst2. unfold dst2, dst.
  rewrite MemFile_Write by exact Ho. cbn [snd].
  rewrite (i64_small (Z.of_nat (length b1))) by (unfold is_i64; lia).
  rewrite (i64_small (o + Z.of_nat (length b1))) by (unfold is_i64; lia).
  rewrite MemFile_Write by lia. cbn [snd sink offset content].
  rewrite (i64_small (Z.of_nat (length b2))) by (unfold is_i64; lia).
  rewrite i64_small by (unfold is_i64; lia).
  split; [|reflexivity].
  replace (Z.to_nat (o + Z.of_nat (length b1)))
    with (Z.to_nat o + length b1)%nat by lia.
  apply write_at_app.
Qed.


(** *** One read of the source of [CopyN] *)

(** The source [DownloadChunk] copies from: the body, read through the
    counter of the session, limited to [limit] bytes. *)
Definition source (r : Body) (d : Download) (limit : Z)
  : LimitedReader (teeReader Body Download) :=
  {| lim_R := {| tee_r := r; tee_w := d |}; lim_N := limit |}.

Definition count (d : Download) (n : Z) : Download :=
  set_size (u64 (size d + n)) d.

Definition rest_of (k : nat) (piece : list byte) (rest : list (list byte))
    (e : error) : Body :=
  {| pending := match drop k piece with
                | [] => rest
                | remainder => remainder :: rest
                end;
     ending := e |}.

Lemma Read_source_done r d limit k :
  limit <= 0 -> Read (source r d limit) k = ([], Some EOF, source r d limit).
Proof.
  intros H. unfold Read, LimitedReader_Read, source. cbn [lim_N].
  assert (E : (limit <=? 0) = true) by (apply Z.leb_le; exact H).
  rewrite E. reflexivity.
Qed.

Lemma Read_source_ended r d limit k :
  0 < limit -> pending r = [] ->
  Read (source r d limit) k = ([], Some (ending r), source r d limit).
Proof.
  intros H Hp. unfold Read at 1, LimitedReader_Read, source. cbn [lim_N lim_R].
  assert (E : (limit <=? 0) = false) by (apply Z.leb_gt; exact H).
  rewrite E. unfold Read, teeReader_Read. cbn [tee_r tee_w].
  unfold Read, Body_Read. rewrite Hp.
  change (0 <? Z.of_nat (length (@nil byte))) with false. cbv iota.
  cbn [length]. change (Z.of_nat 0) with 0. rewrite Z.sub_0_r. reflexivity.
Qed.

Lemma Read_source_piece r d limit k piece rest :
  0 < limit -> pending r = piece :: rest ->
  let k' := if limit <? Z.of_nat k then Z.to_nat limit else k in
  let p := take k' piece in
  Read (source r d limit) k =
    (p, None,
     source (rest_of k' piece rest (ending r))
       (if 0 <? Z.of_nat (length p) then count d (Z.of_nat (length p)) else d)
       (limit - Z.of_nat (length p))).
Proof.
  intros H Hp k' p. unfold Read at 1, LimitedReader_Read, source.
  cbn [lim_N lim_R].
  assert (E : (limit <=? 0) = false) by (apply Z.leb_gt; exact H).
  rewrite E. fold k'. unfold Read, teeReader_Read. cbn [tee_r tee_w].
  unfold Read at 1, Body_Read. rewrite Hp. fold p.
  destruct (0 <? Z.of_nat (length p)) eqn:E0; [|reflexivity].
  rewrite CounterFacts.Download_Write_eq. reflexivity.
Qed.

Lemma rest_of_data k piece rest e :
  take k piece ++ Body_data (rest_of k piece rest e) = piece ++ concat rest.
Proof.
  unfold Body_data, rest_of. cbn [pending].
  pose proof (take_drop k piece) as H.
  set (t := take k piece) in *.
  destruct (drop k piece) as [|x l]; cbn [concat]; rewrite <- H.
  - rewrite app_nil_r. reflexivity.
  - rewrite <- app_assoc. reflexivity.
Qed.

Lemma rest_of_fuel k piece rest e :
  (1 <= k)%nat ->
  (Body_fuel (rest_of k piece rest e)
   < Body_fuel {| pending := piece :: rest; ending := e |})%nat.
Proof.
  intros Hk. unfold Body_fuel, Body_data, rest_of. cbn [pending concat length].
  pose proof (length_drop piece k) as Hd.
  destruct (drop k piece) as [|x l]; cbn [concat length].
  - rewrite length_app. lia.
  - rewrite !length_app. cbn [length] in *. lia.
Qed.

Lemma Read_tee r d k :
  Read {| tee_r := r; tee_w := d |} k =
    match pending r with
    | [] => ([], Some (ending r), {| tee_r := r; tee_w := d |})
    | piece :: rest =>
        (take k piece, None,
         {| tee_r := rest_of k piece rest (ending r);
            tee_w := if 0 <? Z.of_nat (length (take k piece))
                     then count d (Z.of_nat (length (take k piece)))
                     else d |})
    end.
Proof.
  unfold Read, teeReader_Read. cbn [tee_r tee_w].
  unfold Read at 1, Body_Read.
  destruct (pending r) as [|piece rest]; [reflexivity|].
  destruct (0 <? Z.of_nat (length (take k piece))); [|reflexivity].
  rewrite CounterFacts.Download_Write_eq. reflexivity.
Qed.

Lemma buffer_size_limit n : (1 <= buffer_size (Some n))%nat.
Proof.
  unfold buffer_size. destruct (n <? 32 * 1024); [|lia].
  destruct (n <? 1) eqn:E; [lia|]. apply Z.ltb_ge in E. lia.
Qed.

(** *** The copies always return *)

Section Termination.

Context {W : Type} {WW : Writer W}.

Lemma copy_loop_tee_returns (fuel : nat) :
  forall r (d : Download) (dst : W) w bufsize,
  (Body_fuel r <= fuel)%nat -> (1 <= bufsize)%nat ->
  is_Some (copy_loop fuel bufsize dst {| tee_r := r; tee_w := d |} w).
Proof.
  induction fuel as [|fuel IH]; intros r d dst w bufsize Hfuel Hbuf.
  { unfold Body_fuel in Hfuel. lia. }
  cbn [copy_loop]. rewrite Read_tee.
  destruct (pending r) as [|piece rest] eqn:Hp.
  { cbn [length]. change (0 <? Z.of_nat 0) with false. cbv iota.
    destruct (ending r); eauto. }
  assert (Hfr : (Body_fuel (rest_of bufsize piece rest (ending r)) <= fuel)%nat).
  { pose proof (rest_of_fuel bufsize piece rest (ending r) Hbuf) as Hlt.
    assert (Body_fuel {| pending := piece :: rest; ending := ending r |}
            = Body_fuel r)
      by (unfold Body_fuel, Body_data; cbn [pending]; rewrite Hp; reflexivity).
    lia. }
  destruct (0 <? Z.of_nat (length (take bufsize piece))); [|apply IH; assumption].
  destruct (Write dst (take bufsize piece)) as [[nw ew] dst1].
  destruct ((nw <? 0) || (Z.of_nat (length (take bufsize piece)) <? nw)).
  { destruct ew; eauto. }
  destruct ew; [eauto|].
  destruct (negb (Z.of_nat (length (take bufsize piece)) =? nw)); [eauto|].
  apply IH; assumption.
Qed.

Lemma copy_loop_source_returns (fuel : nat) :
  forall r (d : Download) limit (dst : W) w bufsize,
  (Body_fuel r <= fuel)%nat -> (1 <= bufsize)%nat ->
  is_Some (copy_loop fuel bufsize dst (source r d limit) w).
Proof.
  induction fuel as [|fuel IH]; intros r d limit dst w bufsize Hfuel Hbuf.
  { unfold Body_fuel in Hfuel. lia. }
  cbn [copy_loop].
  destruct (Z.le_gt_cases limit 0) as [Hle|Hpos].
  { rewrite Read_source_done by exact Hle. cbn [length].
    change (0 <? Z.of_nat 0) with false. cbv iota. eauto. }
  destruct (pending r) as [|piece rest] eqn:Hp.
  { rewrite Read_source_ended by (lia || exact Hp). cbn [length].
    change (0 <? Z.of_nat 0) with false. cbv iota.
    destruct (ending r); eauto. }
  rewrite (Read_source_piece r d limit bufsize piece rest) by (lia || exact Hp).
  set (k := if limit <? Z.of_nat bufsize then Z.to_nat limit else bufsize).
  assert (Hk : (1 <= k)%nat) by (unfold k; destruct (limit <? Z.of_nat bufsize); lia).
  assert (Hfr : (Body_fuel (rest_of k piece rest (ending r)) <= fuel)%nat).
  { pose proof (rest_of_fuel k piece rest (ending r) Hk) as Hlt.
    assert (Body_fuel {| pending := piece :: rest; ending := ending r |}
            = Body_fuel r)
      by (unfold Body_fuel, Body_data; cbn [pending]; rewrite Hp; reflexivity).
    lia. }
  destruct (0 <? Z.of_nat (length (take k piece))); [|apply IH; assumption].
  destruct (Write dst (take k piece)) as [[nw ew] dst1].
  destruct ((nw <? 0) || (Z.of_nat (length (take k piece)) <? nw)).
  { destruct ew; eauto. }
  destruct ew; [eauto|].
  destruct (negb (Z.of_nat (length (take k piece)) =? nw)); [eauto|].
  apply IH; assumption.
Qed.

(** [DownloadChunk] returns, whatever the writer, the chunk and the
    answer of the server. *)
Lemma DownloadChunk_returns client d c (dest : W) :
  is_Some (DownloadChunk client d c dest).
Proof.
  unfold DownloadChunk.
  destruct (NewRequest client "GET" (URL d) (Header d)) as [e|req]; [eauto|].
  destruct (Client_Do client _) as [e|res]; [eauto|].
  destruct (negb (ContentLength res =? range_length c)); [eauto|].
  unfold CopyN.
  destruct (copy_loop_source_returns (Body_fuel (ResponseBody res))
              (ResponseBody res) d (ContentLength res) dest 0
              (buffer_size (Some (ContentLength res))))
    as [[[[w err] dst'] l] Hrun]; [lia|apply buffer_size_limit|].
  fold (source (ResponseBody res) d (ContentLength res)).
  rewrite Hrun. cbn [mbind option_bind].
  destruct (w =? ContentLength res); [eauto|].
  destruct ((w <? ContentLength res) && bool_decide (err = None)); eauto.
Qed.

End Termination.

Lemma u64_add_l a b : u64 (u64 a + b) = u64 (a + b).
Proof. unfold u64. apply Zplus_mod_idemp_l. Qed.

Section CopyLoop.

Context {Sink : Type} {WS : WriterAt Sink} {Laws : WriterAtLaws Sink}.




End CopyLoop.

(** ** Fetch worker *)




End CopyFacts.


(** ** Orchestrator *)

Module OrchestratorFacts.

Import Planner InitFacts CopyFacts.

(** *** Every method returns *)

Lemma GetInfoOrDownload_returns env d file :
  is_Some (GetInfoOrDownload env d file).
Proof.
  unfold GetInfoOrDownload.
  destruct (NewRequest _ _ _ _) as [e|req]; [eauto|].
  destruct (Client_Do _ _) as [e|res]; [eauto|].
  destruct (300 <=? StatusCode res); [eauto|].
  destruct (create_error env); [eauto|].
  unfold Copy.
  destruct (copy_loop_tee_returns (Body_fuel (ResponseBody res))
              (ResponseBody res) d {| sink := Create; offset := 0 |} 0
              (buffer_size None))
    as [[[[w err] dst'] src] Hrun]; [lia|unfold buffer_size; lia|].
  rewrite Hrun. cbn [mbind option_bind]. destruct err; eauto.
Qed.

Lemma Init_returns env d file : is_Some (Init env d file).
Proof.
  unfold Init.
  destruct (GetInfoOrDownload_returns env d file) as [[[r d'] file'] Hrun].
  rewrite Hrun. cbn [mbind option_bind].
  destruct r as [inf|e|]; eauto.
  destruct (Init_after_probe (numCPU env) inf d'); eauto.
Qed.

Lemma dl_returns client chunks : forall d file,
  is_Some (dl client d file chunks).
Proof.
  induction chunks as [|c rest IH]; intros d file; cbn [dl]; [eauto|].
  destruct (DownloadChunk_returns client d c
              {| sink := file; offset := i64 (Start c) |})
    as [[[err d'] w] Hrun].
  rewrite Hrun. cbn [mbind option_bind].
  destruct err; [eauto|].
  destruct (IH d' (sink w)) as [[[[launches err] d''] file'] Hrest].
  rewrite Hrest. cbn [mbind option_bind]. eauto.
Qed.

Lemma Download_Start_returns env d file :
  is_Some (Download_Start env d file).
Proof.
  unfold Download_Start.
  destruct (negb (Rangeable (info d))); [destruct (ctx_done env); eauto|].
  destruct (create_error env); [eauto|].
  destruct (dl_returns (client env) (chunks d) d
              (Truncate Create (i64 (TotalSize d))).2)
    as [[[[launches err] d'] file'] Hrun].
  rewrite Hrun. cbn [mbind option_bind].
  destruct (ctx_done env && select_ctx env); eauto.
Qed.

Lemma Gdl_Do_returns env d file : is_Some (Gdl_Do env d file).
Proof.
  unfold Gdl_Do.
  destruct (Init_returns env d file) as [[[r d'] file'] Hrun].
  rewrite Hrun. cbn [mbind option_bind].
  destruct r as [[]|e|]; eauto.
  destruct (Download_Start_returns env d' file')
    as [[[[launches err] d''] file''] Hstart].
  rewrite Hstart. cbn [mbind option_bind]. destruct err; eauto.
Qed.





(** The whole of [Do] on the example server with a chunk size of ten:
    it reports success, has launched only the probe, and the destination
    holds five zero bytes instead of the resource. *)
Example Do_with_oversized_chunk :
  exists d',
    Gdl_Do Example.env (Example.session 10) {| content := [] |} =
      Some ([], Ok (), d', {| content := replicate 5 Byte.x00 |}) /\
    Download_Size d' = 1.
Proof. eexists. split; vm_compute; reflexivity. Qed.

(** A resource of five bytes in chunks of two: two chunks are planned and
    fetched, the destination holds the resource, and the counter has seen
    the probe byte and the five bytes. *)
Example Do_downloads_resource :
  let resource := [Byte.x61; Byte.x62; Byte.x63; Byte.x64; Byte.x65] in
  exists d',
    Gdl_Do (Example.range_env resource) (Example.session 2) {| content := [] |}
      = Some ([ {| launched := {| Start := 0; End := 2 |}; writer_offset := 0 |};
                {| launched := {| Start := 3; End := 4 |}; writer_offset := 3 |} ],
              Ok (), d', {| content := resource |}) /\
    Download_Size d' = 6.
Proof. eexists. split; vm_compute; reflexivity. Qed.

(** A resource of six bytes in chunks of two: the third planned chunk is
    [6-5]; its request is no range of the resource, the answer does not
    have the length 0 that the worker expects, and [Do] fails. *)
Example Do_fails_on_empty_last_chunk :
  let resource := [Byte.x61; Byte.x62; Byte.x63; Byte.x64; Byte.x65; Byte.x66] in
  exists launches d' file',
    Gdl_Do (Example.range_env resource) (Example.session 2) {| content := [] |}
      = Some (launches, Fail (ErrRangeLength 6 "bytes=6-5"), d', file') /\
    launched <$> launches =
      [ {| Start := 0; End := 2 |}; {| Start := 3; End := 5 |};
        {| Start := 6; End := 5 |} ].
Proof. eexists _, _, _. split; vm_compute; reflexivity. Qed.

End OrchestratorFacts.


(** * Further properties *)

(** ** [Init]: which plans tile, how long chunks are, when it panics *)

Module InitExtras.

Import Planner PlannerFacts InitFacts Policy.

(** The concurrency [Init] divides by: the one of the session, or the
    default when that is zero. *)
Definition resolved (numCPU : Z) (inf : Info) (d : Download) : Download :=
  if Concurrency d =? 0
  then set_Concurrency (getDefaultConcurrency numCPU) (set_info inf d)
  else set_info inf d.

Lemma resolved_concurrency numCPU inf d :
  is_u64 (Concurrency d) ->
  1 <= u64 (Concurrency (resolved numCPU inf d)) < 2 ^ 64.
Proof.
  unfold is_u64, resolved. intros Hc.
  destruct (Concurrency d =? 0) eqn:E.
  - cbn [Concurrency set_Concurrency].
    pose proof (PolicyFacts.getDefaultConcurrency_range numCPU).
    rewrite u64_small by (unfold is_u64; lia). lia.
  - apply Z.eqb_neq in E. cbn [Concurrency set_info].
    rewrite u64_small by (unfold is_u64; lia). lia.
Qed.

(** With no chunk size given, [Init] on a rangeable resource takes the
    default chunk size and plans with it. *)
Lemma Init_after_probe_default numCPU inf d :
  Rangeable inf = true -> ChunkSize d = 0 ->
  Init_after_probe numCPU inf d =
    cs ← getDefaultChunkSize (Size inf) (MinChunkSize d) (MaxChunkSize d)
           (u64 (Concurrency (resolved numCPU inf d)));
    l ← plan (Size inf) cs;
    Ok (set_chunks l (set_ChunkSize cs (resolved numCPU inf d))).
Proof.
  intros Hr Hcs. unfold Init_after_probe, resolved. simpl. rewrite Hr. simpl.
  destruct (Concurrency d =? 0); simpl; rewrite Hcs; simpl;
    destruct (getDefaultChunkSize _ _ _ _); reflexivity.
Qed.

(** *** The default chunk size *)

Lemma getDefaultChunkSize_positive totalSize min max concurrency :
  2 <= totalSize -> 0 <= min -> 0 <= max -> 1 <= concurrency ->
  exists cs, getDefaultChunkSize totalSize min max concurrency = Ok cs /\
             1 <= cs < totalSize.
Proof.
  intros Ht Hmin Hmax Hc. unfold getDefaultChunkSize, udiv.
  destruct (concurrency =? 0) eqn:E; [apply Z.eqb_eq in E; lia|].
  simpl. eexists. split; [reflexivity|].
  assert (Hh : 1 <= totalSize / 2 < totalSize).
  { split; [apply Z.div_le_lower_bound; lia|apply Z.div_lt; lia]. }
  set (cs1 := if 102400000 <=? totalSize / concurrency
              then totalSize / concurrency / 2 else totalSize / concurrency).
  set (m := if min =? 0
            then if totalSize <=? 2097152 then totalSize / 2 else 2097152
            else min).
  assert (Hm : 1 <= m).
  { unfold m. destruct (min =? 0) eqn:Em;
      [destruct (totalSize <=? 2097152); lia|apply Z.eqb_neq in Em; lia]. }
  set (cs2 := if cs1 <? m then m else cs1).
  assert (H2 : 1 <= cs2).
  { unfold cs2. destruct (cs1 <? m) eqn:E2; [|apply Z.ltb_ge in E2]; lia. }
  set (cs3 := if (0 <? max) && (max <? cs2) then max else cs2).
  assert (H3 : 1 <= cs3).
  { unfold cs3. destruct (0 <? max) eqn:Ea; simpl; [|lia].
    apply Z.ltb_lt in Ea. destruct (max <? cs2); lia. }
  destruct (totalSize <=? cs3) eqn:E4;
    [apply Z.leb_le in E4|apply Z.leb_gt in E4]; lia.
Qed.

Lemma getDefaultChunkSize_tiny totalSize min max concurrency :
  0 <= totalSize <= 1 -> 0 <= min -> 0 <= max -> 1 <= concurrency ->
  getDefaultChunkSize totalSize min max concurrency = Ok 0.
Proof.
  intros Ht Hmin Hmax Hc. unfold getDefaultChunkSize, udiv.
  destruct (concurrency =? 0) eqn:E; [apply Z.eqb_eq in E; lia|].
  simpl. f_equal.
  assert (Hh : totalSize / 2 = 0) by (apply Z.div_small; lia).
  assert (Hq : 0 <= totalSize / concurrency) by (apply Z.div_pos; lia).
  set (cs1 := if 102400000 <=? totalSize / concurrency
              then totalSize / concurrency / 2 else totalSize / concurrency).
  assert (H1 : 0 <= cs1).
  { unfold cs1. destruct (102400000 <=? _); [apply Z.div_pos|]; lia. }
  set (m := if min =? 0
            then if totalSize <=? 2097152 then totalSize / 2 else 2097152
            else min).
  assert (Hm : 0 <= m).
  { unfold m. destruct (min =? 0); [destruct (totalSize <=? 2097152)|]; lia. }
  set (cs2 := if cs1 <? m then m else cs1).
  assert (H2 : 0 <= cs2) by (unfold cs2; destruct (cs1 <? m); lia).
  set (cs3 := if (0 <? max) && (max <? cs2) then max else cs2).
  assert (H3 : 0 <= cs3).
  { unfold cs3. destruct ((0 <? max) && (max <? cs2)); lia. }
  destruct (totalSize <=? cs3) eqn:E4; [exact Hh|].
  apply Z.leb_gt in E4. lia.
Qed.

(** Without bounds the default is at least 2 MiB or at least half of the
    total size. *)
Lemma getDefaultChunkSize_unbounded totalSize concurrency :
  2 <= totalSize -> 1 <= concurrency ->
  exists cs, getDefaultChunkSize totalSize 0 0 concurrency = Ok cs /\
             1 <= cs < totalSize /\
             (2097152 <= cs \/ totalSize / 2 <= cs).
Proof.
  intros Ht Hc.
  destruct (getDefaultChunkSize_positive totalSize 0 0 concurrency)
    as (cs & Hcs & Hpos); try lia.
  exists cs. split; [exact Hcs|]. split; [exact Hpos|].
  revert Hcs. unfold getDefaultChunkSize, udiv.
  destruct (concurrency =? 0) eqn:E; [apply Z.eqb_eq in E; lia|].
  simpl.
  set (cs1 := if 102400000 <=? totalSize / concurrency
              then totalSize / concurrency / 2 else totalSize / concurrency).
  set (m := if totalSize <=? 2097152 then totalSize / 2 else 2097152).
  assert (Hm : m = 2097152 \/ m = totalSize / 2)
    by (unfold m; destruct (totalSize <=? 2097152); auto).
  set (cs2 := if cs1 <? m then m else cs1).
  assert (H2 : m <= cs2).
  { unfold cs2. destruct (cs1 <? m) eqn:E2; [|apply Z.ltb_ge in E2]; lia. }
  destruct (totalSize <=? cs2) eqn:E4; intros [= <-]; lia.
Qed.

(** *** Plans that tile *)



(** X2.  With the default settings (no chunk size, no bounds) [Init]
    plans a tiling with at least one chunk for every rangeable resource
    of 3 bytes to [2^42 - 1] bytes, whatever the concurrency and the
    number of CPUs. *)
Theorem Init_default_plan_tiles numCPU inf d :
  Rangeable inf = true ->
  3 <= Size inf < 2 ^ 42 ->
  ChunkSize d = 0 -> MinChunkSize d = 0 -> MaxChunkSize d = 0 ->
  is_u64 (Concurrency d) ->
  exists d', Init_after_probe numCPU inf d = Ok d' /\
             chunks d' <> [] /\ tiles (chunks d') (Size inf).
Proof.
  intros Hr Ht Hcs Hmin Hmax Hc.
  rewrite Init_after_probe_default by assumption. rewrite Hmin, Hmax.
  pose proof (resolved_concurrency numCPU inf d Hc) as Hconc.
  destruct (getDefaultChunkSize_unbounded (Size inf)
              (u64 (Concurrency (resolved numCPU inf d))))
    as (cs & Hdef & Hpos & Hbig); try lia.
  rewrite Hdef. cbn [mbind result_bind].
  assert (Hgood : Size inf mod (cs + 1) <> 0 \/ Size inf / (cs + 1) < cs).
  { destruct Hbig as [Hbig|Hhalf].
    - right. apply Z.div_lt_upper_bound; [lia|]. nia.
    - assert (H2 : Size inf < 2 * (cs + 1)).
      { pose proof (Z.mul_succ_div_gt (Size inf) 2 ltac:(lia)). lia. }
      destruct (Z.eq_dec cs 1) as [->|Hne].
      + left. assert (Size inf = 3) by lia. rewrite H. vm_compute. discriminate.
      + right. apply Z.div_lt_upper_bound; [lia|]. nia. }
  destruct (plan_tiles (Size inf) cs) as (l & Hl & Htiles); try lia.
  rewrite Hl. cbn [mbind result_bind]. eexists. split; [reflexivity|].
  cbn [chunks set_chunks]. split; [|exact Htiles].
  intros ->. destruct Htiles as (Hcov & _).
  destruct (Hcov 0 ltac:(lia)) as (c & Hc0 & _). set_solver.
Qed.

Lemma Init_default_plan_tiles_witness :
  exists d',
    Init_after_probe 4 {| Size := 5; Rangeable := true |} (Example.session 0)
      = Ok d' /\
    chunks d' <> [] /\ tiles (chunks d') 5.
Proof.
  apply (Init_default_plan_tiles 4 {| Size := 5; Rangeable := true |}
           (Example.session 0)); try reflexivity.
  - simpl. lia.
  - unfold is_u64. simpl. lia.
Defined.

(** *** How long the chunks are *)




(** *** When [Init] panics *)



(** X5.  On a rangeable resource of one byte (or none) and a session
    without a chunk size, [Init] panics: the default chunk size is zero
    and the planner divides by it. *)
Theorem Init_panics_on_tiny_resource numCPU inf d :
  Rangeable inf = true ->
  0 <= Size inf <= 1 ->
  ChunkSize d = 0 ->
  is_u64 (Concurrency d) -> is_u64 (MinChunkSize d) -> is_u64 (MaxChunkSize d) ->
  Init_after_probe numCPU inf d = PanicDivideByZero.
Proof.
  unfold is_u64 at 2 3. intros Hr Ht Hcs Hc Hmin Hmax.
  rewrite Init_after_probe_default by assumption.
  pose proof (resolved_concurrency numCPU inf d Hc) as Hconc.
  rewrite getDefaultChunkSize_tiny by lia.
  reflexivity.
Qed.

Lemma Init_panics_on_tiny_resource_witness :
  Init_after_probe 4 {| Size := 1; Rangeable := true |} (Example.session 0)
  = PanicDivideByZero.
Proof.
  apply Init_panics_on_tiny_resource; try reflexivity;
    unfold is_u64; simpl; lia.
Defined.

End InitExtras.


(** ** File names *)

Module NamesExtras.

Import GoStrings GoStringsFacts ResolverFacts Filepath.

(** *** Strings and their bytes *)

Lemma string_of_app a b :
  string_of_list_ascii (a ++ b)
  = string_of_list_ascii a +:+ string_of_list_ascii b.
Proof.
  induction a as [|c a IH]; [reflexivity|].
  cbn [app string_of_list_ascii]. rewrite append_cons, IH. reflexivity.
Qed.

Lemma append_assoc a b c : (a +:+ b) +:+ c = a +:+ (b +:+ c).
Proof.
  induction a as [|x a IH]; [reflexivity|].
  rewrite !append_cons, IH. reflexivity.
Qed.

Lemma append_nil_r a : a +:+ EmptyString = a.
Proof.
  induction a as [|x a IH]; [reflexivity|]. rewrite append_cons, IH. reflexivity.
Qed.

Lemma has_byte_app c a b : has_byte c (a +:+ b) <-> has_byte c a \/ has_byte c b.
Proof.
  induction a as [|x a IH].
  - rewrite append_nil. simpl. tauto.
  - rewrite append_cons. simpl. rewrite IH. tauto.
Qed.

Lemma has_byte_of_list c l :
  has_byte c (string_of_list_ascii l) <-> c ∈ l.
Proof.
  induction l as [|x l IH]; simpl.
  - split; [tauto|]. apply not_elem_of_nil.
  - rewrite IH, elem_of_cons. split; intros [H|H]; auto.
Qed.

Lemma has_byte_substring c s :
  has_byte c s <-> substring (String c EmptyString) s.
Proof.
  unfold substring. induction s as [|x s IH]; simpl.
  - split; [tauto|]. intros (a & b & H). destruct a; discriminate.
  - rewrite IH. split.
    + intros [->|(a & b & ->)].
      * exists EmptyString, s. reflexivity.
      * exists (String x a), b. reflexivity.
    + intros (a & b & H). destruct a as [|y a].
      * left. rewrite append_nil, append_cons in H. congruence.
      * right. rewrite append_cons in H. injection H as _ ->. eauto.
Qed.

(** *** The scans of [Ext] and [Base] *)

(** [last_element] returns the bytes behind the last separator, in
    front of what it was given. *)
Lemma last_element_spec back : forall suffix,
  exists a b,
    back = a ++ b /\ ("/"%char ∉ a) /\
    (b = [] \/ exists b', b = "/"%char :: b') /\
    last_element back suffix = string_of_list_ascii (rev a) +:+ suffix.
Proof.
  induction back as [|c back IH]; intros suffix.
  - exists [], []. repeat split; auto. set_solver.
  - cbn [last_element]. destruct (Ascii.eqb_spec c "/") as [->|Hc].
    + exists [], ("/"%char :: back). repeat split; eauto. set_solver.
    + destruct (IH (String c suffix)) as (a & b & -> & Ha & Hb & Hl).
      exists (c :: a), b. split; [reflexivity|]. split.
      { apply not_elem_of_cons. split; [congruence|exact Ha]. }
      split; [exact Hb|]. rewrite Hl. cbn [rev].
      rewrite string_of_app, append_assoc. reflexivity.
Qed.

(** A path with an extension does not end in a separator, and its last
    element holds a dot. *)
Lemma Ext_scan_found back : forall suffix suffix',
  Ext_scan back suffix <> EmptyString ->
  strip_separators back = back /\
  has_byte "." (last_element back suffix').
Proof.
  induction back as [|c back IH]; intros suffix suffix' H.
  - simpl in H. congruence.
  - cbn [Ext_scan strip_separators last_element] in *.
    destruct (Ascii.eqb_spec c "/") as [->|Hc]; [congruence|].
    split; [reflexivity|].
    destruct (Ascii.eqb_spec c ".") as [->|Hd].
    + destruct (last_element_spec back (String "." suffix'))
        as (a & b & _ & _ & _ & ->).
      apply has_byte_app. right. simpl. auto.
    + destruct (IH (String c suffix) (String c suffix') H) as [_ Hl]. exact Hl.
Qed.

Lemma Ext_Base p :
  Ext p <> EmptyString ->
  Base p <> EmptyString /\ ~ has_byte "/" (Base p) /\ has_byte "." (Base p) /\
  exists dir, p = dir +:+ Base p /\
              (dir = EmptyString \/ exists dir', dir = dir' +:+ "/").
Proof.
  unfold Ext, Base. intros H.
  destruct p as [|c0 p0]; [simpl in H; congruence|].
  set (p := String c0 p0) in *.
  set (back := rev (list_ascii_of_string p)) in *.
  destruct (Ext_scan_found back EmptyString EmptyString H) as [Hstrip Hdot].
  rewrite Hstrip.
  destruct (last_element_spec back EmptyString) as (a & b & Hback & Ha & Hb & Hl).
  rewrite append_nil_r in Hl. rewrite Hl in *.
  assert (Hne : string_of_list_ascii (rev a) <> EmptyString).
  { intros E. rewrite E in Hdot. simpl in Hdot. exact Hdot. }
  assert (Hbase : match string_of_list_ascii (rev a) with
                  | EmptyString => "/"
                  | String a0 s => String a0 s
                  end = string_of_list_ascii (rev a)).
  { destruct (string_of_list_ascii (rev a)); [congruence|reflexivity]. }
  rewrite Hbase. split; [exact Hne|]. split.
  { rewrite has_byte_of_list, list_elem_of_In, <- in_rev, <- list_elem_of_In.
    exact Ha. }
  split; [exact Hdot|].
  exists (string_of_list_ascii (rev b)). split.
  - rewrite <- string_of_app, <- rev_app_distr, <- Hback. unfold back.
    rewrite rev_involutive, string_of_list_ascii_of_string. reflexivity.
  - destruct Hb as [->|[b' ->]]; [left; reflexivity|right].
    exists (string_of_list_ascii (rev b')). cbn [rev].
    rewrite string_of_app. reflexivity.
Qed.

(** *** [GetFilename] *)

Lemma DefaultFileName_plain :
  DefaultFileName <> EmptyString /\ ~ has_byte "/" DefaultFileName /\
  has_byte "." DefaultFileName.
Proof.
  split; [discriminate|]. split.
  - simpl. intuition discriminate.
  - simpl. auto 10.
Qed.

Lemma GetFilename_plain (url_Path : string -> option string) (URL : string) :
  GetFilename url_Path URL <> EmptyString /\
  ~ has_byte "/" (GetFilename url_Path URL).
Proof.
  pose proof DefaultFileName_plain as (H1 & H2 & _).
  unfold GetFilename. destruct (url_Path URL) as [p|]; [|auto].
  destruct (Mime.string_eqb (Ext p) EmptyString) eqn:E; cbn [negb]; [auto|].
  unfold Mime.string_eqb in E. apply bool_decide_eq_false in E.
  destruct (Ext_Base p E) as (H3 & H4 & _). auto.
Qed.

(** X6.  Whatever the URL and the URL parser, [GetFilename] returns a
    name that is not empty, holds no slash and holds a dot: the default
    name, or the last element of the path of the URL (what follows its
    last slash) when that element holds a dot. *)
Theorem GetFilename_spec (url_Path : string -> option string) (URL : string) :
  let name := GetFilename url_Path URL in
  name <> EmptyString /\ ~ has_byte "/" name /\ has_byte "." name /\
  (name = DefaultFileName \/
   exists p dir,
     url_Path URL = Some p /\ p = dir +:+ name /\
     (dir = EmptyString \/ exists dir', dir = dir' +:+ "/")).
Proof.
  pose proof DefaultFileName_plain as Hdefault.
  unfold GetFilename. destruct (url_Path URL) as [p|] eqn:Hp.
  2:{ cbv zeta. destruct Hdefault as (H1 & H2 & H3). auto. }
  destruct (Mime.string_eqb (Ext p) EmptyString) eqn:E; cbn [negb]; cbv zeta.
  { destruct Hdefault as (H1 & H2 & H3). auto. }
  unfold Mime.string_eqb in E. apply bool_decide_eq_false in E.
  destruct (Ext_Base p E) as (H1 & H2 & H3 & dir & Hdir & Hend).
  split; [exact H1|]. split; [exact H2|]. split; [exact H3|].
  right. exists p, dir. auto.
Qed.

(** *** The resolver never gives an unsafe name *)

Lemma empty_name_safe : ~ unsafe_name EmptyString.
Proof.
  unfold unsafe_name, substring.
  intros [(a & b & H)|[(a & b & H)|(a & b & H)]]; destruct a; discriminate.
Qed.

Lemma resolver_result_safe
    (ParseMediaType : string -> option (string * gmap string string)) val :
  ~ unsafe_name (getNameFromHeader ParseMediaType val).
Proof.
  unfold getNameFromHeader.
  destruct (ParseMediaType val) as [[mediatype params]|];
    [|apply empty_name_safe].
  destruct (Contains _ ".." || Contains _ "/" || Contains _ "\") eqn:E;
    [apply empty_name_safe|].
  intros Hu. apply unsafe_name_test in Hu. congruence.
Qed.

(** X7.  Whatever the header value and the parser of media types, the
    name the resolver returns holds no [..], no slash and no backslash;
    and when it is not empty it is the [filename] parameter of the value
    as parsed. *)
Theorem getNameFromHeader_never_unsafe
    (ParseMediaType : string -> option (string * gmap string string))
    (val : string) :
  let name := getNameFromHeader ParseMediaType val in
  ~ substring ".." name /\ ~ substring "/" name /\ ~ substring "\" name /\
  (name <> EmptyString ->
   exists mediatype params,
     ParseMediaType val = Some (mediatype, params) /\
     name = param params "filename").
Proof.
  cbv zeta. pose proof (resolver_result_safe ParseMediaType val) as Hs.
  unfold unsafe_name in Hs.
  split; [tauto|]. split; [tauto|]. split; [tauto|].
  unfold getNameFromHeader.
  destruct (ParseMediaType val) as [[mediatype params]|]; [|congruence].
  destruct (Contains _ ".." || Contains _ "/" || Contains _ "\");
    [congruence|].
  intros _. eauto.
Qed.

(** *** [Path] *)

Section PathFacts.

Variable url_Path : string -> option string.
Variable ParseMediaType : string -> option (string * gmap string string).
Variable Join : string -> string -> string.

Lemma string_eqb_eq a b : Mime.string_eqb a b = true <-> a = b.
Proof. unfold Mime.string_eqb. apply bool_decide_eq_true. Qed.

Lemma Path_name_cases (d : Naming) :
  (Dest d <> EmptyString /\ Path_name url_Path ParseMediaType d = Dest d) \/
  (Dest d = EmptyString /\
   Path_name url_Path ParseMediaType d
     = getNameFromHeader ParseMediaType (unsafeName d) /\
   getNameFromHeader ParseMediaType (unsafeName d) <> EmptyString) \/
  (Dest d = EmptyString /\
   Path_name url_Path ParseMediaType d = GetFilename url_Path (NamingURL d)).
Proof.
  unfold Path_name. cbv zeta.
  destruct (Mime.string_eqb (Dest d) EmptyString) eqn:Ed; cbn [negb].
  2:{ left. split; [|reflexivity].
      intros H. apply string_eqb_eq in H. congruence. }
  apply string_eqb_eq in Ed. right.
  destruct (Mime.string_eqb (unsafeName d) EmptyString); cbn [negb]; [auto|].
  destruct (Mime.string_eqb (getNameFromHeader ParseMediaType (unsafeName d))
              EmptyString) eqn:En; cbn [negb]; [auto|].
  left. split; [exact Ed|]. split; [reflexivity|].
  intros H. apply string_eqb_eq in H. congruence.
Qed.

Lemma Path_name_nonempty (d : Naming) :
  Path_name url_Path ParseMediaType d <> EmptyString.
Proof.
  destruct (Path_name_cases d) as [[H ->]|[(_ & -> & H)|(_ & ->)]]; auto.
  apply GetFilename_plain.
Qed.

(** X8.  When no destination is given, the name [Path] joins to the
    directory is not empty and holds no slash: it is the name of the
    header as the resolver accepted it, or the name taken from the URL. *)
Theorem Path_joins_plain_name (d : Naming) :
  Dest d = EmptyString -> path d = EmptyString ->
  exists name,
    (Path url_Path ParseMediaType Join d).1 = Join (Dir d) name /\
    name <> EmptyString /\ ~ has_byte "/" name /\
    (name = getNameFromHeader ParseMediaType (unsafeName d) \/
     name = GetFilename url_Path (NamingURL d)).
Proof.
  intros Hdest Hpath. unfold Path. rewrite Hpath.
  assert (E : Mime.string_eqb EmptyString EmptyString = true)
    by (apply string_eqb_eq; reflexivity).
  rewrite E. cbn [fst].
  exists (Path_name url_Path ParseMediaType d). split; [reflexivity|].
  split; [apply Path_name_nonempty|].
  destruct (Path_name_cases d) as [[H _]|[(_ & -> & H)|(_ & ->)]].
  - congruence.
  - split; [|left; reflexivity].
    pose proof (resolver_result_safe ParseMediaType (unsafeName d)) as Hs.
    intros Hb. apply Hs. right. left. apply has_byte_substring. exact Hb.
  - split; [|right; reflexivity]. apply GetFilename_plain.
Qed.

(** X9.  [Path] is computed once: provided [filepath.Join] gives a
    non-empty path for a non-empty name, the first call returns a
    non-empty path and stores it, and every later call returns the same
    path and changes nothing, also after the header name of the session
    has changed. *)
Theorem Path_is_stable (d : Naming) :
  (forall dir name, name <> EmptyString -> Join dir name <> EmptyString) ->
  let p := (Path url_Path ParseMediaType Join d).1 in
  let d1 := (Path url_Path ParseMediaType Join d).2 in
  p <> EmptyString /\ path d1 = p /\
  forall header,
    Path url_Path ParseMediaType Join (set_unsafeName header d1)
    = (p, set_unsafeName header d1).
Proof.
  intros HJoin. cbv zeta.
  destruct (Mime.string_eqb (path d) EmptyString) eqn:E.
  - set (p := Join (Dir d) (Path_name url_Path ParseMediaType d)).
    assert (HP : Path url_Path ParseMediaType Join d = (p, set_path p d))
      by (unfold Path; rewrite E; reflexivity).
    rewrite HP. cbn [fst snd].
    assert (Hp : p <> EmptyString) by (apply HJoin, Path_name_nonempty).
    split; [exact Hp|]. split; [reflexivity|].
    intros header. unfold Path. cbn [path set_path set_unsafeName].
    assert (E' : Mime.string_eqb p EmptyString = false)
      by (unfold Mime.string_eqb; apply bool_decide_eq_false; exact Hp).
    rewrite E'. reflexivity.
  - assert (HP : Path url_Path ParseMediaType Join d = (path d, d))
      by (unfold Path; rewrite E; reflexivity).
    rewrite HP. cbn [fst snd].
    assert (Hp : path d <> EmptyString)
      by (unfold Mime.string_eqb in E; apply bool_decide_eq_false in E; exact E).
    split; [exact Hp|]. split; [reflexivity|].
    intros header. unfold Path. cbn [path set_unsafeName].
    rewrite E. reflexivity.
Qed.

End PathFacts.

(** A join for the examples: the directory, a slash, the name. *)
Definition join_example (dir name : string) : string :=
  match dir with
  | EmptyString => name
  | _ => dir +:+ "/" +:+ name
  end.

Definition naming_example : Naming :=
  {| NamingURL := "/files/a.bin"; Dir := "out"; Dest := EmptyString;
     path := EmptyString; unsafeName := "attachment; filename=b.bin" |}.

Lemma Path_joins_plain_name_witness :
  exists name,
    (Path (fun u => Some u) Mime.ParseMediaType join_example naming_example).1
      = join_example "out" name /\
    name <> EmptyString /\ ~ has_byte "/" name.
Proof.
  destruct (Path_joins_plain_name (fun u => Some u) Mime.ParseMediaType
              join_example naming_example eq_refl eq_refl)
    as (name & Hpath & Hne & Hslash & _).
  exists name. auto.
Defined.

Lemma Path_is_stable_witness :
  let d1 := (Path (fun u => Some u) Mime.ParseMediaType join_example
               naming_example).2 in
  Path (fun u => Some u) Mime.ParseMediaType join_example
    (set_unsafeName "attachment; filename=c.bin" d1)
  = ("out/b.bin", set_unsafeName "attachment; filename=c.bin" d1).
Proof.
  intros d1.
  destruct (Path_is_stable (fun u => Some u) Mime.ParseMediaType join_example
              naming_example) as (_ & _ & Hlater).
  - intros dir name Hname. unfold join_example.
    destruct dir as [|c dir]; [exact Hname|].
    rewrite append_cons. discriminate.
  - apply Hlater.
Defined.

End NamesExtras.


(** ** Requests *)

Module RequestExtras.






End RequestExtras.


(** ** Copies into a sink that does not fail *)

Module CopyExtras.

Import CopyFacts.

(** What a body reports when its bytes are read: nothing for [EOF], else
    its error. *)
Definition ended (r : Body) : option error :=
  match ending r with
  | EOF => None
  | e => Some e
  end.

Lemma count_zero d : is_u64 (size d) -> count d 0 = d.
Proof.
  intros H. unfold count. rewrite Z.add_0_r, u64_small by exact H.
  destruct d. reflexivity.
Qed.

Lemma count_count d a b : count (count d a) b = count d (a + b).
Proof.
  unfold count. cbn [size set_size]. rewrite u64_add_l, Z.add_assoc.
  reflexivity.
Qed.

Lemma count_size d n : is_u64 (size (count d n)).
Proof. unfold count. cbn [size set_size]. apply u64_range. Qed.

Section Reliable.

Context {Sink : Type} {WS : WriterAt Sink} {Laws : WriterAtLaws Sink}.

(** The sink refuses negative offsets only. *)
Hypothesis reliable : forall s b off n e s',
  WriteAt s b off = (n, Some e, s') -> off < 0.


(** The loop of [io.Copy] without a limit: it moves all the bytes of the
    body and reports how the body ended. *)
Lemma copy_loop_tee_exact (fuel : nat) :
  forall r (d : Download) (dst : OffsetWriter Sink) w bufsize,
  (Body_fuel r <= fuel)%nat -> (1 <= bufsize)%nat ->
  is_u64 (size d) -> 0 <= w -> 0 <= offset dst ->
  let n := Z.of_nat (length (Body_data r)) in
  w + n < 2 ^ 63 -> offset dst + n < 2 ^ 63 ->
  exists dst' r',
    copy_loop fuel bufsize dst {| tee_r := r; tee_w := d |} w
      = Some (w + n, ended r, dst', {| tee_r := r'; tee_w := count d n |}) /\
    bytes_of (sink dst') =
      write_at (Z.to_nat (offset dst)) (Body_data r) (bytes_of (sink dst)) /\
    offset dst' = offset dst + n.
Proof.
  induction fuel as [|fuel IH];
    intros r d dst w bufsize Hfuel Hbuf Hd Hw Ho n Hwn Hon.
  { unfold Body_fuel in Hfuel. lia. }
  cbn [copy_loop]. rewrite Read_tee.
  destruct (pending r) as [|piece rest] eqn:Hp.
  { cbn [length]. change (0 <? Z.of_nat 0) with false. cbv iota.
    assert (Hdata : Body_data r = []) by (unfold Body_data; rewrite Hp; reflexivity).
    assert (Hn : n = 0) by (unfold n; rewrite Hdata; reflexivity).
    rewrite Hn, Hdata, !Z.add_0_r, count_zero, write_at_nil by exact Hd.
    exists dst, r. split; [|split; reflexivity].
    unfold ended. destruct (ending r); reflexivity. }
  set (p := take bufsize piece).
  set (r1 := rest_of bufsize piece rest (ending r)).
  pose proof (rest_of_data bufsize piece rest (ending r)) as Hdata.
  fold p r1 in Hdata.
  assert (Hdr : Body_data r = p ++ Body_data r1).
  { rewrite Hdata. unfold Body_data. rewrite Hp. reflexivity. }
  assert (Hfr : (Body_fuel r1 <= fuel)%nat).
  { pose proof (rest_of_fuel bufsize piece rest (ending r) Hbuf) as Hlt.
    assert (Body_fuel {| pending := piece :: rest; ending := ending r |}
            = Body_fuel r)
      by (unfold Body_fuel, Body_data; cbn [pending]; rewrite Hp; reflexivity).
    unfold r1. lia. }
  assert (Hended : ended r1 = ended r) by reflexivity.
  assert (Hlen : n = Z.of_nat (length p) + Z.of_nat (length (Body_data r1))).
  { unfold n. rewrite Hdr, length_app. lia. }
  destruct (0 <? Z.of_nat (length p)) eqn:Enr.
  2:{ apply Z.ltb_ge in Enr.
    assert (Hp0 : p = []) by (destruct p; [reflexivity|cbn [length] in Enr; lia]).
    rewrite Hp0 in *. cbn [length app] in *.
    destruct (IH r1 d dst w bufsize)
      as (dst' & r' & Hrun & Hbytes & Hoff); try assumption; try lia.
    cbv zeta in Hrun, Hbytes, Hoff.
    exists dst', r'. rewrite Hdr, <- Hended.
    replace n with (Z.of_nat (length (Body_data r1))) by lia. auto. }
  apply Z.ltb_lt in Enr.
  unfold Write at 1, OffsetWriter_Write.
  destruct (WriteAt (sink dst) p (offset dst)) as [[nw ew] s1] eqn:Ewr.
  destruct ew as [e|].
  { pose proof (reliable _ _ _ _ _ _ Ewr). lia. }
  pose proof (WriteAt_bytes _ _ _ _ _ _ Ewr Ho) as Hbytes.
  pose proof (WriteAt_short _ _ _ _ _ Ewr) as Hfull. subst nw.
  assert (Ev : (Z.of_nat (length p) <? 0)
               || (Z.of_nat (length p) <? Z.of_nat (length p)) = false).
  { apply orb_false_iff. rewrite !Z.ltb_ge. lia. }
  rewrite Ev. rewrite (i64_small (Z.of_nat (length p))) by (unfold is_i64; lia).
  rewrite (i64_small (offset dst + _)) by (unfold is_i64; lia).
  rewrite (i64_small (w + _)) by (unfold is_i64; lia).
  rewrite Z.eqb_refl. cbn [negb].
  set (dst1 := {| sink := s1; offset := offset dst + Z.of_nat (length p) |}).
  destruct (IH r1 (count d (Z.of_nat (length p))) dst1
              (w + Z.of_nat (length p)) bufsize)
    as (dst' & r' & Hrun & Hb' & Hoff);
    try assumption; try (cbn [offset dst1]; lia).
  { apply count_size. }
  cbv zeta in Hrun, Hb', Hoff. cbn [sink offset dst1] in Hb', Hoff.
  exists dst', r'. split; [|split].
  - etransitivity; [exact Hrun|]. rewrite count_count, Hended, Hlen.
    rewrite Z.add_assoc. reflexivity.
  - rewrite Hb', Hbytes. rewrite Nat2Z.id, (take_ge p (length p)) by lia.
    replace (Z.to_nat (offset dst + Z.of_nat (length p)))
      with (Z.to_nat (offset dst) + length p)%nat by lia.
    rewrite write_at_app, Hdr. reflexivity.
  - rewrite Hoff, Hlen. lia.
Qed.


End Reliable.

Lemma MemFile_reliable (s : MemFile) b off n e s' :
  WriteAt s b off = (n, Some e, s') -> off < 0.
Proof.
  unfold WriteAt, MemFile_WriteAt.
  destruct (off <? 0) eqn:E; [intros _; apply Z.ltb_lt; exact E|discriminate].
Qed.

End CopyExtras.


(** ** The probe, the workers and the whole session on a file *)

Module SessionExtras.

Import Planner PlannerFacts InitFacts InitExtras GoStringsFacts ProbeFacts.
Import CopyFacts CopyExtras.

Lemma write_at_start (b : list byte) : write_at 0 b [] = b.
Proof.
  destruct b as [|x b]; [reflexivity|].
  unfold write_at. cbn [resize]. rewrite drop_nil, app_nil_r. reflexivity.
Qed.

(** [io.Copy] of a whole body into a file. *)
Lemma Copy_into_file r d (dst : OffsetWriter MemFile) :
  is_u64 (size d) -> 0 <= offset dst ->
  let n := Z.of_nat (length (Body_data r)) in
  n < 2 ^ 63 -> offset dst + n < 2 ^ 63 ->
  exists r',
    Copy (Body_fuel r) dst {| tee_r := r; tee_w := d |}
      = Some (n, ended r,
              {| sink := {| content :=
                    write_at (Z.to_nat (offset dst)) (Body_data r)
                      (content (sink dst)) |};
                 offset := offset dst + n |},
              {| tee_r := r'; tee_w := count d n |}).
Proof.
  intros Hd Ho n Hn Hon. unfold Copy.
  destruct (copy_loop_tee_exact MemFile_reliable (Body_fuel r) r d dst 0
              (buffer_size None))
    as (dst' & r' & Hrun & Hbytes & Hoff); try assumption; try lia.
  { unfold buffer_size. lia. }
  cbv zeta in Hrun, Hbytes, Hoff. fold n in Hrun, Hoff.
  exists r'. rewrite Hrun, Z.add_0_l.
  destruct dst' as [[cont] off]. cbn in Hbytes, Hoff. subst cont off.
  reflexivity.
Qed.


(** *** The probe *)

(** The request of the probe: the headers of the session, then
    [Range: bytes=0-0]. *)
Definition probe_request (env : Env) (d : Download) : error + Request :=
  NewRequest (client env) "GET" (URL d)
    (Header d ++ [ {| Key := "Range"; Value := "bytes=0-0" |} ]).

Lemma GetInfoOrDownload_body env d file req res :
  probe_request env d = inr req ->
  Client_Do (client env) req = inr res ->
  StatusCode res < 300 ->
  create_error env = None ->
  is_u64 (size d) ->
  Z.of_nat (length (Body_data (ResponseBody res))) < 2 ^ 63 ->
  GetInfoOrDownload env d file =
    Some (match ended (ResponseBody res) with
          | Some err => Fail err
          | None => classify (Header_Get (ResponseHeader res) "Content-Range")
                      (ContentLength res)
          end,
          count d (Z.of_nat (length (Body_data (ResponseBody res)))),
          {| content := Body_data (ResponseBody res) |}).
Proof.
  intros Hreq Hdo Hst Hcr Hd Hlen. unfold probe_request in Hreq.
  unfold GetInfoOrDownload. rewrite Hreq, Hdo, Hcr.
  assert (E : (300 <=? StatusCode res) = false) by (apply Z.leb_gt; exact Hst).
  rewrite E.
  destruct (Copy_into_file (ResponseBody res) d {| sink := Create; offset := 0 |})
    as (r' & Hrun); try assumption; cbn [offset]; try lia.
  cbv zeta in Hrun. rewrite Hrun. cbn [mbind option_bind sink offset tee_w].
  change (Z.to_nat 0) with 0%nat. cbn [content Create].
  rewrite write_at_start.
  destruct (ended (ResponseBody res)); reflexivity.
Qed.

(** X11.  When the probe is answered with a status below 300 and the
    file can be created, the whole body of the answer is written to the
    new file from offset 0 and counted, however long it is and whatever
    the headers say; the probe fails with the error of the body if
    reading it ends with one, and else classifies the answer. *)
Theorem GetInfoOrDownload_stores_body env d file req res :
  probe_request env d = inr req ->
  Client_Do (client env) req = inr res ->
  StatusCode res < 300 ->
  create_error env = None ->
  is_u64 (size d) ->
  Z.of_nat (length (Body_data (ResponseBody res))) < 2 ^ 63 ->
  exists r d' file',
    GetInfoOrDownload env d file = Some (r, d', file') /\
    content file' = Body_data (ResponseBody res) /\
    Download_Size d' =
      u64 (size d + Z.of_nat (length (Body_data (ResponseBody res)))) /\
    match ending (ResponseBody res) with
    | EOF => r = classify (Header_Get (ResponseHeader res) "Content-Range")
                   (ContentLength res)
    | err => r = Fail err
    end.
Proof.
  intros Hreq Hdo Hst Hcr Hd Hlen.
  rewrite (GetInfoOrDownload_body env d file req res) by assumption.
  eexists _, _, _. split; [reflexivity|]. split; [reflexivity|].
  split; [reflexivity|].
  unfold ended. destruct (ending (ResponseBody res)); reflexivity.
Qed.

Lemma GetInfoOrDownload_stores_body_witness :
  exists r d' file',
    GetInfoOrDownload Example.env (Example.session 0) {| content := [] |}
      = Some (r, d', file') /\
    content file' = [Byte.x68] /\
    Download_Size d' = 1 /\
    r = Ok {| Size := 5; Rangeable := true |}.
Proof.
  apply (GetInfoOrDownload_stores_body Example.env (Example.session 0)
           {| content := [] |}
           (Header_Set "Range" "bytes=0-0"
              (Header_Set "User-Agent" UserAgent
                 {| Method := "GET"; RequestURL := "http://example.org/a.bin";
                    RequestHeader := ∅ |}))
           Example.probe_response).
  - reflexivity.
  - reflexivity.
  - simpl. lia.
  - reflexivity.
  - unfold is_u64. simpl. lia.
  - simpl. lia.
Defined.

(** *** A server that does not announce ranges *)

Lemma Do_body env d file req res :
  probe_request env d = inr req ->
  Client_Do (client env) req = inr res ->
  StatusCode res < 300 ->
  create_error env = None ->
  ctx_done env = false ->
  is_u64 (size d) ->
  Z.of_nat (length (Body_data (ResponseBody res))) < 2 ^ 63 ->
  ending (ResponseBody res) = EOF ->
  Header_Get (ResponseHeader res) "Content-Range" = EmptyString
    \/ ContentLength res <> 1 ->
  Gdl_Do env d file =
    Some ([], Ok (),
          set_info Info_zero
            (count d (Z.of_nat (length (Body_data (ResponseBody res))))),
          {| content := Body_data (ResponseBody res) |}).
Proof.
  intros Hreq Hdo Hst Hcr Hctx Hd Hlen Hend Hno.
  unfold Gdl_Do, Init.
  rewrite (GetInfoOrDownload_body env d file req res) by assumption.
  assert (He : ended (ResponseBody res) = None)
    by (unfold ended; rewrite Hend; reflexivity).
  rewrite He.
  assert (Hcl : classify (Header_Get (ResponseHeader res) "Content-Range")
                  (ContentLength res) = Ok Info_zero).
  { unfold classify. destruct Hno as [->|Hno].
    - rewrite string_eqb_true. reflexivity.
    - assert (E : (ContentLength res =? 1) = false)
        by (apply Z.eqb_neq; exact Hno).
      rewrite E, andb_false_r. reflexivity. }
  rewrite Hcl. cbn [mbind option_bind].
  unfold Init_after_probe. cbn [info set_info Info_zero Rangeable negb].
  cbn [mbind option_bind].
  unfold Download_Start. cbn [info set_info Info_zero Rangeable negb].
  rewrite Hctx. reflexivity.
Qed.

(** X12.  When the answer to the probe has no [Content-Range] or a
    content length other than 1, and its body ends without error, [Do]
    succeeds without one chunk request: the file holds the body of that
    answer, the counter has seen it, and the total size stays 0. *)
Theorem Do_without_ranges env d file req res :
  probe_request env d = inr req ->
  Client_Do (client env) req = inr res ->
  StatusCode res < 300 ->
  create_error env = None ->
  ctx_done env = false ->
  is_u64 (size d) ->
  Z.of_nat (length (Body_data (ResponseBody res))) < 2 ^ 63 ->
  ending (ResponseBody res) = EOF ->
  Header_Get (ResponseHeader res) "Content-Range" = EmptyString
    \/ ContentLength res <> 1 ->
  exists d',
    Gdl_Do env d file =
      Some ([], Ok (), d', {| content := Body_data (ResponseBody res) |}) /\
    TotalSize d' = 0 /\ chunks d' = chunks d /\
    Download_Size d' =
      u64 (size d + Z.of_nat (length (Body_data (ResponseBody res)))).
Proof.
  intros Hreq Hdo Hst Hcr Hctx Hd Hlen Hend Hno.
  rewrite (Do_body env d file req res) by assumption.
  eexists. split; [reflexivity|]. repeat split.
Qed.

Lemma Do_without_ranges_witness :
  let resource := [Byte.x61; Byte.x62; Byte.x63] in
  exists d',
    Gdl_Do (Example.plain_env resource) (Example.session 0) {| content := [] |}
      = Some ([], Ok (), d', {| content := resource |}) /\
    TotalSize d' = 0 /\ chunks d' = [] /\ Download_Size d' = 3.
Proof.
  intros resource.
  apply (Do_without_ranges (Example.plain_env resource) (Example.session 0)
           {| content := [] |}
           (Header_Set "Range" "bytes=0-0"
              (Header_Set "User-Agent" UserAgent
                 {| Method := "GET"; RequestURL := "http://example.org/a.bin";
                    RequestHeader := ∅ |}))
           (Example.plain_response resource)).
  - reflexivity.
  - reflexivity.
  - simpl. lia.
  - reflexivity.
  - reflexivity.
  - unfold is_u64. simpl. lia.
  - simpl. lia.
  - reflexivity.
  - left. reflexivity.
Defined.

(** *** A probe that is refused *)

(** The ways the probe fails before it reads a body: the request cannot
    be built, the client returns an error, the status is 300 or more, or
    the file cannot be created. *)
Definition probe_refused (env : Env) (d : Download) (err : error) : Prop :=
  probe_request env d = inl err \/
  exists req, probe_request env d = inr req /\
    (Client_Do (client env) req = inl err \/
     exists res, Client_Do (client env) req = inr res /\
       ((300 <= StatusCode res /\ err = ErrStatus (StatusCode res)) \/
        (StatusCode res < 300 /\ create_error env = Some err))).

(** X13.  When the probe is refused, [Do] returns the error of the probe
    without a chunk request; nothing is written, nothing is counted, no
    chunk is planned, and the information of the session is the zero
    [Info]. *)
Theorem Do_stops_when_probe_refused env d file err :
  probe_refused env d err ->
  Gdl_Do env d file = Some ([], Fail err, set_info Info_zero d, file).
Proof.
  unfold probe_refused, probe_request, Gdl_Do, Init, GetInfoOrDownload.
  intros [Hreq|(req & Hreq & [Hdo|(res & Hdo & [[Hst ->]|[Hst Hcr]])])];
    rewrite Hreq; try rewrite Hdo; try reflexivity.
  - assert (E : (300 <=? StatusCode res) = true) by (apply Z.leb_le; exact Hst).
    rewrite E. reflexivity.
  - assert (E : (300 <=? StatusCode res) = false) by (apply Z.leb_gt; exact Hst).
    rewrite E, Hcr. reflexivity.
Qed.

Lemma Do_stops_when_probe_refused_witness :
  let env := {| client := Example.server; numCPU := 4;
                create_error := Some (ErrExternal "permission denied");
                ctx_done := false; select_ctx := false |} in
  Gdl_Do env (Example.session 0) {| content := [Byte.x61] |} =
    Some ([], Fail (ErrExternal "permission denied"),
          set_info Info_zero (Example.session 0), {| content := [Byte.x61] |}).
Proof.
  intros env.
  apply (Do_stops_when_probe_refused env (Example.session 0)).
  right. eexists. split; [reflexivity|].
  right. exists Example.probe_response. split; [reflexivity|].
  right. split; [simpl; lia|reflexivity].
Defined.

(** *** Chunks that follow one another, and a server that honours them *)















(** *** The whole session *)








End SessionExtras.


(** ** The default concurrency, safe file names, consecutive writes *)

Module MiscExtras.

Import Policy.

(** X16.  On a machine with at least one CPU the default concurrency is
    three times the number of CPUs, capped at 20; the fallback to 4 is
    never taken. *)
Theorem getDefaultConcurrency_exact numCPU :
  1 <= numCPU < 2 ^ 61 ->
  getDefaultConcurrency numCPU = Z.min 20 (3 * numCPU).
Proof.
  intros H. unfold getDefaultConcurrency.
  rewrite i64_small by (unfold is_i64; lia).
  rewrite u64_small by (unfold is_u64; lia).
  destruct (20 <? numCPU * 3) eqn:E1.
  - apply Z.ltb_lt in E1. simpl. lia.
  - apply Z.ltb_ge in E1.
    destruct (numCPU * 3 <=? 2) eqn:E2;
      [apply Z.leb_le in E2|apply Z.leb_gt in E2]; lia.
Qed.

Lemma getDefaultConcurrency_exact_witness :
  getDefaultConcurrency 8 = Z.min 20 (3 * 8).
Proof. apply getDefaultConcurrency_exact. lia. Defined.

Lemma getNameFromHeader_accepts_witness :
  getNameFromHeader Mime.ParseMediaType "attachment; filename=a.txt"
    = param {[ "filename" := "a.txt" ]} "filename".
Proof.
  apply (ResolverFacts.getNameFromHeader_accepts Mime.ParseMediaType
           "attachment; filename=a.txt" "attachment").
  - vm_compute. reflexivity.
  - intros Hu. apply ResolverFacts.unsafe_name_test in Hu.
    vm_compute in Hu. discriminate Hu.
Defined.

Lemma OffsetWriter_Write_sequence_witness :
  let dst := {| sink := {| content := [Byte.x00] |}; offset := 1 |} in
  let dst2 := (Write (Write dst [Byte.x61]).2 [Byte.x62; Byte.x63]).2 in
  content (sink dst2) =
    write_at (Z.to_nat 1) ([Byte.x61] ++ [Byte.x62; Byte.x63]) [Byte.x00] /\
  offset dst2 = 1 + Z.of_nat 1 + Z.of_nat 2.
Proof.
  apply (CopyFacts.OffsetWriter_Write_sequence {| content := [Byte.x00] |} 1
           [Byte.x61] [Byte.x62; Byte.x63]); simpl; lia.
Defined.

End MiscExtras.
